(** * Mention bookkeeping and message-collection synchronisation

    A shallow embedding of [MentionManager] (range helpers, search-string
    detection, template serialisation, range reconciliation and removal) and of
    the [useGroupChannelMessagesWithCollection] hook (init / prev / next),
    together with the properties stated about them.

    Conventions.
    - Text offsets and [Range] bounds are JavaScript numbers that hold
      integers; they are modelled as [Z].
    - JavaScript strings are modelled as [string]; the string primitives the
      sources call ([slice], [split], [indexOf], [startsWith]) are written out
      in module [JS] with their out-of-range behaviour.
    - The hook is modelled by explicit state passing: a callback takes the
      values it reads from its scope and returns the reducer actions it
      dispatches and the effects it performs on the SDK. *)

From Stdlib Require Import ZArith List String Ascii Bool Lia.
From Stdlib Require Import DecimalString Permutation Sorted.
Import ListNotations.

Open Scope Z_scope.

(* ------------------------------------------------------------------------- *)
(** ** Data model (types.ts of the mention domain, as used by the manager)   *)
(* ------------------------------------------------------------------------- *)

Record SendbirdUser := mkUser { userId : string; nickname : string }.

(** [end] is a reserved word, the field is called [end_]. *)
Record Range := mkRange { start : Z; end_ : Z }.

Record MentionedUser := mkMention { user : SendbirdUser; range : Range }.

Record MentionConfigInterface := mkConfig { trigger : string; delimiter : string }.

Record MentionManager := mkManager {
  config : MentionConfigInterface;
  mentionEnabled : bool
}.

(** The [compare] argument of [rangeHelpers.intersection]. *)
Inductive Compare := underOver | underMore | lessOver | lessMore.

(* ------------------------------------------------------------------------- *)
(** ** rangeHelpers                                                          *)
(* ------------------------------------------------------------------------- *)

Module rangeHelpers.

Definition inRangeUnderOver (start num end_ : Z) : bool :=
  (start <? num) && (num <? end_).

Definition inRangeUnderMore (start num end_ : Z) : bool :=
  (start <? num) && (num <=? end_).

Definition inRangeLessOver (start num end_ : Z) : bool :=
  (start <=? num) && (num <? end_).

Definition inRangeLessMore (start num end_ : Z) : bool :=
  (start <=? num) && (num <=? end_).

(** The object literal indexed by [compare]. *)
Definition select (compare : Compare) : Z -> Z -> Z -> bool :=
  match compare with
  | underOver => inRangeUnderOver
  | underMore => inRangeUnderMore
  | lessOver => inRangeLessOver
  | lessMore => inRangeLessMore
  end.

Definition intersection (a b : Range) (compare : Compare) : bool :=
  let range := select compare in
  range (start a) (start b) (end_ a) || range (start a) (end_ b) (end_ a).

(** The call with [compare] omitted takes the default parameter. *)
Definition intersection_default (a b : Range) : bool :=
  intersection a b underOver.

End rangeHelpers.

(* ------------------------------------------------------------------------- *)
(** ** reconcileRangeInMentionedUsers                                        *)
(* ------------------------------------------------------------------------- *)

Definition reconcileOne (offset selectionIndex : Z) (it : MentionedUser) : MentionedUser :=
  if selectionIndex <=? start (range it) then
    {| user := user it;
       range := {| start := start (range it) + offset;
                   end_ := end_ (range it) + offset |} |}
  else it.

Definition reconcileRangeInMentionedUsers
    (offset selectionIndex : Z) (mentionedUsers : list MentionedUser) : list MentionedUser :=
  map (reconcileOne offset selectionIndex) mentionedUsers.

(* ------------------------------------------------------------------------- *)
(** ** removeMentionedUsersInSelection                                       *)
(* ------------------------------------------------------------------------- *)

Record Removal := mkRemoval {
  filtered : list MentionedUser;
  lastSelection : Z;
  removedOffset : Z
}.

(** One call of the [filter] callback: the two [let] variables are threaded
    through, and the element is kept when the callback returns [true]. *)
Definition removeStep (selection : Range) (acc : Removal) (it : MentionedUser) : Removal :=
  let shouldRemove := rangeHelpers.intersection selection (range it) lessMore in
  if shouldRemove then
    {| filtered := filtered acc;
       lastSelection := Z.max (lastSelection acc) (end_ (range it));
       removedOffset := removedOffset acc - (end_ (range it) - start (range it)) |}
  else
    {| filtered := filtered acc ++ [it];
       lastSelection := lastSelection acc;
       removedOffset := removedOffset acc |}.

Definition removeMentionedUsersInSelection
    (selection : Range) (mentionedUsers : list MentionedUser) : Removal :=
  fold_left (removeStep selection) mentionedUsers
            {| filtered := []; lastSelection := 0; removedOffset := 0 |}.

(* ------------------------------------------------------------------------- *)
(** ** Specification-side vocabulary for the mention claims                  *)
(* ------------------------------------------------------------------------- *)

(** Point containment for each inclusivity mode, as a proposition. *)
Definition modeContains (compare : Compare) (a : Range) (num : Z) : Prop :=
  match compare with
  | underOver => start a < num /\ num < end_ a
  | underMore => start a < num /\ num <= end_ a
  | lessOver => start a <= num /\ num < end_ a
  | lessMore => start a <= num /\ num <= end_ a
  end.

(** Closed-closed overlap of a mention with the selection [[a,b]]. *)
Definition closedOverlap (selection : Range) (it : MentionedUser) : Prop :=
  start (range it) <= end_ selection /\ end_ (range it) >= start selection.

(** An end point of the mention lies in the closed selection. *)
Definition endpointInside (selection : Range) (it : MentionedUser) : Prop :=
  (start selection <= start (range it) <= end_ selection) \/
  (start selection <= end_ (range it) <= end_ selection).

(** The mention range strictly contains the selection. *)
Definition strictlyEncloses (selection : Range) (it : MentionedUser) : Prop :=
  start (range it) < start selection /\ end_ selection < end_ (range it).

Definition hits (selection : Range) (it : MentionedUser) : bool :=
  rangeHelpers.intersection selection (range it) lessMore.

Definition removedIn (selection : Range) (ms : list MentionedUser) : list MentionedUser :=
  filter (hits selection) ms.

Definition keptIn (selection : Range) (ms : list MentionedUser) : list MentionedUser :=
  filter (fun it => negb (hits selection it)) ms.

Definition rangeLength (it : MentionedUser) : Z := end_ (range it) - start (range it).

Definition sumZ (l : list Z) : Z := fold_right Z.add 0 l.

(** Largest range end of a list of mentions, [0] for the empty list. *)
Definition maxEnd (l : list MentionedUser) : Z :=
  fold_right (fun it acc => Z.max (end_ (range it)) acc) 0 l.


(* ------------------------------------------------------------------------- *)
(** ** JavaScript string and array primitives called by the sources          *)
(* ------------------------------------------------------------------------- *)

Module JS.

Definition len (s : string) : Z := Z.of_nat (String.length s).

(** Resolution of a relative index by [String.prototype.slice]: a negative
    index counts from the end, and the result is clamped to [0 .. len]. *)
Definition clampIndex (n i : Z) : Z :=
  if i <? 0 then Z.max (n + i) 0 else Z.min i n.

(** [s.slice(from, to)]; [to = None] is the call with one argument. *)
Definition slice (s : string) (from : Z) (to : option Z) : string :=
  let n := len s in
  let f := clampIndex n from in
  let t := match to with Some e => clampIndex n e | None => n end in
  substring (Z.to_nat f) (Z.to_nat (Z.max (t - f) 0)) s.

(** [s.startsWith(p)]. *)
Definition startsWith (s p : string) : bool := prefix p s.

(** First position, counted from [i], at which [p] occurs in [s]; [-1] when
    it does not occur. *)
Fixpoint indexOfFrom (p s : string) (i : Z) : Z :=
  if prefix p s then i
  else match s with
       | EmptyString => -1
       | String _ s' => indexOfFrom p s' (i + 1)
       end.

(** [s.indexOf(p)]. *)
Definition indexOf (s p : string) : Z := indexOfFrom p s 0.

(** Left-to-right scan of [split] for a non-empty separator: [cur] is the
    piece being collected and [skip] counts the characters of a matched
    separator that are still to be passed over. *)
Fixpoint splitFrom (sep s cur : string) (skip : nat) : list string :=
  match s with
  | EmptyString => [cur]
  | String c s' =>
      match skip with
      | S k => splitFrom sep s' cur k
      | O =>
          if prefix sep s
          then cur :: splitFrom sep s' EmptyString (Nat.pred (String.length sep))
          else splitFrom sep s' (cur ++ String c EmptyString)%string 0
      end
  end.

Fixpoint chars (s : string) : list string :=
  match s with
  | EmptyString => []
  | String c s' => String c EmptyString :: chars s'
  end.

(** [s.split(sep)] for a string separator; an empty separator splits into
    code units, and the empty string then gives the empty array. *)
Definition split (s sep : string) : list string :=
  match sep with
  | EmptyString => chars s
  | String _ _ => splitFrom sep s EmptyString 0
  end.

(** [arr.pop()], [None] being [undefined]. *)
Definition pop {A} (l : list A) : option A :=
  match rev l with
  | [] => None
  | x :: _ => Some x
  end.

(** [x ?? d]. *)
Definition nullish {A} (x : option A) (d : A) : A :=
  match x with Some v => v | None => d end.

(** [arr.join('')]. *)
Definition join (l : list string) : string := String.concat EmptyString l.

(** Insertion of [x] in front of the first element it does not sort after. *)
Fixpoint insertBy {A} (cmp : A -> A -> Z) (x : A) (l : list A) : list A :=
  match l with
  | [] => [x]
  | y :: l' => if cmp x y <=? 0 then x :: l else y :: insertBy cmp x l'
  end.

(** [arr.sort(cmp)]: a stable sort, elements that compare equal keep their
    relative order. *)
Definition sort {A} (cmp : A -> A -> Z) (l : list A) : list A :=
  fold_right (insertBy cmp) [] l.

End JS.

(* ------------------------------------------------------------------------- *)
(** ** getSearchString                                                       *)
(* ------------------------------------------------------------------------- *)

Record SearchString := mkSearch {
  searchString : string;
  isTriggered : bool;            (* value of the call [isTriggered()] *)
  isValidSearchString : bool     (* value of the call [isValidSearchString()] *)
}.

(** [_invalidStartsKeywords], set by the constructor. *)
Definition invalidStartsKeywords (m : MentionManager) : list string :=
  [trigger (config m); delimiter (config m)].

(** [text.slice(0, selectionIndex).split(delimiter).pop() ?? ''] *)
Definition lastSpanOf (m : MentionManager) (text : string) (selectionIndex : Z) : string :=
  JS.nullish
    (JS.pop (JS.split (JS.slice text 0 (Some selectionIndex)) (delimiter (config m))))
    EmptyString.

Definition mentionSpanOf (m : MentionManager) (lastSpan : string) : string :=
  let triggerIdx := JS.indexOf lastSpan (trigger (config m)) in
  if triggerIdx =? -1 then lastSpan else JS.slice lastSpan triggerIdx None.

Definition getSearchString (m : MentionManager) (text : string) (selectionIndex : Z)
  : SearchString :=
  let lastSpan := lastSpanOf m text selectionIndex in
  let mentionSpan := mentionSpanOf m lastSpan in
  let searchString := JS.slice mentionSpan (JS.len (trigger (config m))) None in
  {| searchString := searchString;
     isTriggered := JS.startsWith mentionSpan (trigger (config m));
     isValidSearchString :=
       forallb (fun it => negb (JS.startsWith searchString it)) (invalidStartsKeywords m) |}.

Definition getSearchStringRangeInText (m : MentionManager) (selectionIndex : Z)
    (searchString : string) : Range :=
  {| start := selectionIndex - JS.len searchString - JS.len (trigger (config m));
     end_ := selectionIndex |}.

(** The suffix of [s] from position [n]. *)
Definition suffixFrom (n : nat) (s : string) : string :=
  substring n (String.length s - n) s.

(** [s] has an occurrence of [p]. *)
Definition occursIn (p s : string) : Prop :=
  exists pre post : string, s = (pre ++ p ++ post)%string.

(* ------------------------------------------------------------------------- *)
(** ** Template serialisation and parsing                                    *)
(* ------------------------------------------------------------------------- *)

Definition asMentionedMessageTemplate (m : MentionManager) (u : SendbirdUser)
    (withDelimiter : bool) : string :=
  (trigger (config m) ++ "{" ++ userId u ++ "}"
     ++ (if withDelimiter then delimiter (config m) else EmptyString))%string.

Definition asMentionedMessageText (m : MentionManager) (u : SendbirdUser)
    (withDelimiter : bool) : string :=
  (trigger (config m) ++ nickname u
     ++ (if withDelimiter then delimiter (config m) else EmptyString))%string.

(** The comparator [(a, b) => b.range.start - a.range.start]. *)
Definition byStartDescending (a b : MentionedUser) : Z :=
  start (range b) - start (range a).

(** One step of the [reduce] in [textToMentionedMessageTemplate]. *)
Definition templateStep (m : MentionManager)
    (acc : string * list string) (curr : MentionedUser) : string * list string :=
  let '(leftText, strings) := acc in
  let leftSpan := JS.slice leftText 0 (Some (start (range curr))) in
  let templateSpan := asMentionedMessageTemplate m (user curr) false in
  let rightSpan := JS.slice leftText (end_ (range curr)) None in
  (leftSpan, templateSpan :: rightSpan :: strings).

Definition textToMentionedMessageTemplate (m : MentionManager) (text : string)
    (mentionedUsers : list MentionedUser) : string :=
  if negb (mentionEnabled m) then text
  else
    let '(leftText, strings) :=
      fold_left (templateStep m) (JS.sort byStartDescending mentionedUsers) (text, []) in
    JS.join (leftText :: strings).

Record TextAndMentionedUsers := mkParsed {
  mentionedText : string;
  mentionedUsers : list MentionedUser
}.

(** The body ignores both arguments and returns the two empty values. *)
Definition templateToTextAndMentionedUsers (m : MentionManager) (template : string)
    (users : list SendbirdUser) : TextAndMentionedUsers :=
  {| mentionedText := EmptyString; mentionedUsers := [] |}.

(** The ranges of a mention list are pairwise disjoint (end exclusive). *)
Fixpoint nonOverlapping (ms : list MentionedUser) : Prop :=
  match ms with
  | [] => True
  | x :: rest =>
      Forall (fun y => end_ (range x) <= start (range y) \/
                       end_ (range y) <= start (range x)) rest
      /\ nonOverlapping rest
  end.

(** Two mention lists hold the same set of (user, range) pairs. *)
Definition sameMentions (l1 l2 : list MentionedUser) : Prop :=
  forall x, In x l1 <-> In x l2.

(* ------------------------------------------------------------------------- *)
(** ** Messages, the SDK collection and the message store                    *)
(* ------------------------------------------------------------------------- *)

(** A message of the chat SDK, with the attributes the hook and the store
    read.  [messageId] is the confirmed identity (absent until the server
    accepts the message), [reqId] the pending identity (present on user and
    file messages only). *)
Record SendbirdMessage := mkMessage {
  messageId : option Z;
  reqId : option string;
  senderId : string;
  createdAt : Z;
  body : string
}.

(** The SDK's [MessageCollection] object, with the members the hook reads. *)
Record MessageCollection := mkCollection {
  collectionId : nat;
  hasPrevious : bool;
  hasNext : bool;
  disposed : bool;
  pendingMessages : list SendbirdMessage;
  failedMessages : list SendbirdMessage
}.

(** The functions returned by [useGroupChannelMessagesReducer], as the
    actions they dispatch. *)
Inductive Action :=
| updateMessages (messages : list SendbirdMessage) (clearPrev : bool)
| updateNextMessages (messages : list SendbirdMessage) (clearPrev : bool)
| deleteMessages (messageIds : list (option Z)) (reqIds : list string)
| deleteNextMessages (messageIds : list (option Z)) (reqIds : list string)
| updateLoading (status : bool)
| updateRefreshing (status : bool).

Record State := mkState {
  loading : bool;
  refreshing : bool;
  messages : list SendbirdMessage;
  nextMessages : list SendbirdMessage
}.

Definition eqOpt {A} (eqb : A -> A -> bool) (x y : option A) : bool :=
  match x, y with
  | Some a, Some b => eqb a b
  | _, _ => false
  end.

(** Modelled from the spec: identity resolution of the store in [./reducer],
    which is not among the sources.  Two entries denote the same message when
    they share a confirmed identity or a pending identity. *)
Definition sameIdentity (a b : SendbirdMessage) : bool :=
  eqOpt Z.eqb (messageId a) (messageId b) || eqOpt String.eqb (reqId a) (reqId b).

(** Modelled from the spec: upsert of one message, an existing entry is
    replaced in place and a new one is appended. *)
Fixpoint upsertOne (m : SendbirdMessage) (l : list SendbirdMessage) : list SendbirdMessage :=
  match l with
  | [] => [m]
  | x :: l' => if sameIdentity x m then m :: l' else x :: upsertOne m l'
  end.

Definition upsert (ms l : list SendbirdMessage) : list SendbirdMessage :=
  fold_left (fun acc m => upsertOne m acc) ms l.

(** Modelled from the spec: the default comparator, creation time ascending. *)
Definition defaultComparator (a b : SendbirdMessage) : Z := createdAt a - createdAt b.

Definition Comparator := SendbirdMessage -> SendbirdMessage -> Z.

Definition matchesAny (ids : list (option Z)) (reqs : list string) (m : SendbirdMessage) : bool :=
  existsb (fun i => eqOpt Z.eqb i (messageId m)) ids ||
  existsb (fun r => eqOpt String.eqb (Some r) (reqId m)) reqs.

(** Modelled from the spec: the state transitions of the message store in
    [./reducer] (setCurrent, setNext, removeByIdentity and the two busy
    flags); the reducer is not among the sources.  [current] is kept sorted by
    the comparator, [pendingNext] stays in arrival order. *)
Definition reducer (sortComparator : option Comparator) (st : State) (a : Action) : State :=
  let cmp := JS.nullish sortComparator defaultComparator in
  match a with
  | updateMessages ms clearPrev =>
      {| loading := loading st; refreshing := refreshing st;
         messages := JS.sort cmp (if clearPrev then ms else upsert ms (messages st));
         nextMessages := nextMessages st |}
  | updateNextMessages ms clearPrev =>
      {| loading := loading st; refreshing := refreshing st;
         messages := messages st;
         nextMessages := if clearPrev then ms else upsert ms (nextMessages st) |}
  | deleteMessages ids reqs =>
      {| loading := loading st; refreshing := refreshing st;
         messages := filter (fun m => negb (matchesAny ids reqs m)) (messages st);
         nextMessages := nextMessages st |}
  | deleteNextMessages ids reqs =>
      {| loading := loading st; refreshing := refreshing st;
         messages := messages st;
         nextMessages := filter (fun m => negb (matchesAny ids reqs m)) (nextMessages st) |}
  | updateLoading b =>
      {| loading := b; refreshing := refreshing st;
         messages := messages st; nextMessages := nextMessages st |}
  | updateRefreshing b =>
      {| loading := loading st; refreshing := b;
         messages := messages st; nextMessages := nextMessages st |}
  end.


(* ------------------------------------------------------------------------- *)
(** ** The hook: state, effects and the monad its callbacks run in           *)
(* ------------------------------------------------------------------------- *)

(** Calls made on the SDK, in the order they are made. *)
Inductive SdkCall :=
| callDispose (collection : nat)
| callCreateMessageCollection (collection : nat)
| callMarkAsDelivered
| callMarkAsRead
| callInitialize (collection : nat)
| callSetHandler (collection : nat)
| callLoadPrevious (collection : nat)
| callLoadNext (collection : nat).

Record Hook := mkHook {
  sortComparator : option Comparator;         (* options?.sortComparator *)
  collectionRef : option MessageCollection;   (* collectionRef.current *)
  store : State;                              (* the reducer's state *)
  dispatched : list Action;                   (* actions sent to the reducer *)
  sdkCalls : list SdkCall                     (* calls made on the SDK *)
}.

(** Outcome of running a piece of JavaScript: it returns or it throws (a
    rejected promise under [await] is a throw). *)
Inductive Result (A : Type) :=
| Returned (a : A)
| Thrown (error : string).
Arguments Returned {A} a.
Arguments Thrown {A} error.

(** State changes made before a throw persist. *)
Definition M (A : Type) : Type := Hook -> Result A * Hook.

Definition ret {A} (a : A) : M A := fun h => (Returned a, h).

Definition bind {A B} (c : M A) (k : A -> M B) : M B :=
  fun h => match c h with
           | (Returned a, h') => k a h'
           | (Thrown e, h') => (Thrown e, h')
           end.

Notation "x <- c ;; k" := (bind c (fun x => k))
  (at level 61, c at next level, right associativity).
Notation "c ;;; k" := (bind c (fun _ => k))
  (at level 61, right associativity).

(** [try { body } catch { handler }] *)
Definition tryCatch {A} (body : M A) (handler : string -> M A) : M A :=
  fun h => match body h with
           | (Returned a, h') => (Returned a, h')
           | (Thrown e, h') => handler e h'
           end.

Definition readRef : M (option MessageCollection) :=
  fun h => (Returned (collectionRef h), h).

Definition writeRef (c : option MessageCollection) : M unit :=
  fun h => (Returned tt,
            {| sortComparator := sortComparator h; collectionRef := c;
               store := store h; dispatched := dispatched h; sdkCalls := sdkCalls h |}).

(** A call of one of the reducer's functions. *)
Definition dispatch (a : Action) : M unit :=
  fun h => (Returned tt,
            {| sortComparator := sortComparator h; collectionRef := collectionRef h;
               store := reducer (sortComparator h) (store h) a;
               dispatched := dispatched h ++ [a]; sdkCalls := sdkCalls h |}).

Definition sdk (c : SdkCall) : M unit :=
  fun h => (Returned tt,
            {| sortComparator := sortComparator h; collectionRef := collectionRef h;
               store := store h; dispatched := dispatched h;
               sdkCalls := sdkCalls h ++ [c] |}).

(** The answer of the SDK to an awaited call, given from outside. *)
Definition await {A} (answer : Result A) : M A := fun h => (answer, h).

(** [if (uid)]: [undefined] and the empty string are falsy. *)
Definition truthy (uid : option string) : bool :=
  match uid with
  | Some s => negb (String.eqb s EmptyString)
  | None => false
  end.

Definition markDisposed (c : MessageCollection) : MessageCollection :=
  {| collectionId := collectionId c; hasPrevious := hasPrevious c; hasNext := hasNext c;
     disposed := true;
     pendingMessages := pendingMessages c; failedMessages := failedMessages c |}.

(** [if (collectionRef.current) collectionRef.current?.dispose();] *)
Definition disposeCurrent : M unit :=
  c <- readRef ;;
  match c with
  | Some col => sdk (callDispose (collectionId col)) ;;; writeRef (Some (markDisposed col))
  | None => ret tt
  end.

(** The [dispose] calls that [init] makes first. *)
Definition disposeCallsOf (c : option MessageCollection) : list SdkCall :=
  match c with
  | Some col => [callDispose (collectionId col)]
  | None => []
  end.

(** Both receipts are sent; a failure of either is logged and goes no further. *)
Definition channelMarkAs : M unit :=
  sdk callMarkAsDelivered ;;; sdk callMarkAsRead.

(** [init]: [created] is the collection [createMessageCollection] returns
    when it is called.  This is [init] when every call it makes returns;
    [initWith] below has the outcomes of the calls that can throw. *)
Definition init (uid : option string) (created : MessageCollection) : M unit :=
  disposeCurrent ;;;
  if truthy uid then
    sdk (callCreateMessageCollection (collectionId created)) ;;;
    writeRef (Some created) ;;;
    dispatch (updateNextMessages [] true) ;;;
    channelMarkAs ;;;
    sdk (callInitialize (collectionId created)) ;;;
    sdk (callSetHandler (collectionId created))
  else ret tt.

(** The two snapshot callbacks registered by [init] have the same body. *)
Definition onSnapshot (err : option string) (snapshot : list SendbirdMessage) : M unit :=
  match err with
  | Some _ => ret tt
  | None =>
      dispatch (updateMessages snapshot true) ;;;
      c <- readRef ;;
      dispatch (updateMessages (JS.nullish (option_map pendingMessages c) []) false) ;;;
      dispatch (updateMessages (JS.nullish (option_map failedMessages c) []) false)
  end.

Definition onMessagesAdded (ms : list SendbirdMessage) : M unit :=
  channelMarkAs ;;; dispatch (updateNextMessages ms false).

Definition onMessagesUpdated (ms : list SendbirdMessage) : M unit :=
  dispatch (updateNextMessages ms false).

Definition onMessagesDeleted (ms : list SendbirdMessage) : M unit :=
  let msgIds := map messageId ms in
  let reqIds := flat_map (fun m => match reqId m with Some r => [r] | None => [] end) ms in
  dispatch (deleteMessages msgIds reqIds) ;;; dispatch (deleteNextMessages msgIds reqIds).

Definition refresh (userId : option string) (created : MessageCollection) : M unit :=
  dispatch (updateRefreshing true) ;;;
  init userId created ;;;
  dispatch (updateRefreshing false).

Definition hasPage (flag : MessageCollection -> bool) (c : option MessageCollection) : bool :=
  match c with
  | Some col => flag col
  | None => false
  end.

Definition collectionIdOf (c : option MessageCollection) : nat :=
  match c with
  | Some col => collectionId col
  | None => O
  end.

(** [prev]: [page] is the outcome of [loadPrevious()]. *)
Definition prev (page : Result (list SendbirdMessage)) : M unit :=
  c <- readRef ;;
  if hasPage hasPrevious c then
    tryCatch
      (sdk (callLoadPrevious (collectionIdOf c)) ;;;
       list <- await page ;;
       dispatch (updateMessages list false))
      (fun _ => ret tt)
  else ret tt.

(** [next]: [nextMessages] is the value the callback closes over, [page] the
    outcome of [loadNext()]. *)
Definition next (nextMessages : list SendbirdMessage)
    (page : Result (list SendbirdMessage)) : M unit :=
  let list0 : list SendbirdMessage := [] in
  c <- readRef ;;
  list1 <- (if hasPage hasNext c then
              tryCatch
                (sdk (callLoadNext (collectionIdOf c)) ;;;
                 fetchedList <- await page ;;
                 ret (list0 ++ fetchedList))
                (fun _ => ret list0)
            else ret list0) ;;
  let list2 := if 0 <? Z.of_nat (List.length nextMessages) then list1 ++ nextMessages else list1 in
  if 0 <? Z.of_nat (List.length list2) then
    dispatch (updateMessages list2 false) ;;;
    dispatch (updateNextMessages [] true)
  else ret tt.

(** The page that [next] gets to see: the fetched list when there is a
    collection that reports a next page and the fetch succeeds, nothing
    otherwise. *)
Definition fetchedPage (h : Hook) (page : Result (list SendbirdMessage)) : list SendbirdMessage :=
  if hasPage hasNext (collectionRef h) then
    match page with
    | Returned l => l
    | Thrown _ => []
    end
  else [].



(* ------------------------------------------------------------------------- *)
(** ** textToMentionedComponents                                             *)
(* ------------------------------------------------------------------------- *)

(** An entry of the array that [textToMentionedComponents] builds: a plain
    string, or the bold [Text] element with its [key] and its child. *)
Inductive Component :=
| plainSpan (s : string)
| TextElement (key : string) (children : string).

(** The function returns the text itself when mentions are disabled and an
    array of components otherwise. *)
Inductive Rendered :=
| renderedText (text : string)
| renderedComponents (components : list Component).

(** A number appended to a string, in decimal. *)
Definition numberToString (n : nat) : string :=
  NilEmpty.string_of_uint (Nat.to_uint n).

(** One step of the [reduce] in [textToMentionedComponents]; the third
    component of the state is [currentIndex]. *)
Definition componentsStep (acc : string * list Component * nat) (curr : MentionedUser)
  : string * list Component * nat :=
  let '(leftText, components, currentIndex) := acc in
  let leftSpan := JS.slice leftText 0 (Some (start (range curr))) in
  let mentionSpan := JS.slice leftText (start (range curr)) (Some (end_ (range curr))) in
  let rightSpan := JS.slice leftText (end_ (range curr)) None in
  (leftSpan,
   TextElement (mentionSpan ++ numberToString currentIndex) mentionSpan
     :: plainSpan rightSpan :: components,
   S currentIndex).

Definition textToMentionedComponents (m : MentionManager) (text : string)
    (mentionedUsers : list MentionedUser) : Rendered :=
  if negb (mentionEnabled m) then renderedText text
  else
    let '(leftText, components, _) :=
      fold_left componentsStep (JS.sort byStartDescending mentionedUsers) (text, [], O) in
    renderedComponents (plainSpan leftText :: components).

(** The characters a component shows. *)
Definition shownText (c : Component) : string :=
  match c with
  | plainSpan s => s
  | TextElement _ children => children
  end.

Definition isBold (c : Component) : bool :=
  match c with
  | plainSpan _ => false
  | TextElement _ _ => true
  end.

Definition appendAll (l : list string) : string :=
  fold_right String.append EmptyString l.

(** The characters a rendering shows, in order. *)
Definition renderedString (r : Rendered) : string :=
  match r with
  | renderedText text => text
  | renderedComponents components => appendAll (map shownText components)
  end.

(* ------------------------------------------------------------------------- *)
(** ** A text laid out as plain pieces and mention spans                     *)
(* ------------------------------------------------------------------------- *)

(** A mention span of the text, followed by the plain piece up to the next
    mention. *)
Record Segment := mkSegment {
  segUser : SendbirdUser;
  segSpan : string;
  segAfter : string
}.

Fixpoint layoutText (segs : list Segment) : string :=
  match segs with
  | [] => EmptyString
  | s :: rest => (segSpan s ++ segAfter s ++ layoutText rest)%string
  end.

(** The mentions of a layout whose first span starts at [offset]. *)
Fixpoint layoutMentions (offset : Z) (segs : list Segment) : list MentionedUser :=
  match segs with
  | [] => []
  | s :: rest =>
      {| user := segUser s;
         range := {| start := offset; end_ := offset + JS.len (segSpan s) |} |}
        :: layoutMentions (offset + JS.len (segSpan s) + JS.len (segAfter s)) rest
  end.

(** The layout with every span replaced by the template of its user. *)
Fixpoint layoutTemplate (m : MentionManager) (segs : list Segment) : string :=
  match segs with
  | [] => EmptyString
  | s :: rest =>
      (asMentionedMessageTemplate m (segUser s) false ++ segAfter s
         ++ layoutTemplate m rest)%string
  end.

(** The components of a layout: every span bold, every plain piece plain. *)
Fixpoint layoutShown (segs : list Segment) : list (bool * string) :=
  match segs with
  | [] => []
  | s :: rest => (true, segSpan s) :: (false, segAfter s) :: layoutShown rest
  end.

Definition wellFormed (it : MentionedUser) : Prop :=
  0 <= start (range it) <= end_ (range it).


(* ------------------------------------------------------------------------- *)
(** ** The hook: effects, sending and resending                              *)
(* ------------------------------------------------------------------------- *)

(** The cleanup of the [useEffect] with no dependencies. *)
Definition unmount : M unit := disposeCurrent.

(** The body of the [useAsyncEffect]. *)
Definition mountEffect (userId : option string) (created : MessageCollection) : M unit :=
  dispatch (updateLoading true) ;;;
  init userId created ;;;
  dispatch (updateLoading false).

(** [onHugeGapDetected] of the handler that [init uid] installs. *)
Definition onHugeGapDetected (uid : option string) (created : MessageCollection) : M unit :=
  init uid created.

(** [sendUserMessage] and [sendFileMessage] have the same body:
    [pendingMessage] is what the channel's send call returns at once. *)
Definition sendUserMessage (pendingMessage : SendbirdMessage) : M SendbirdMessage :=
  dispatch (updateMessages [pendingMessage] false) ;;; ret pendingMessage.

Definition sendFileMessage (pendingMessage : SendbirdMessage) : M SendbirdMessage :=
  dispatch (updateMessages [pendingMessage] false) ;;; ret pendingMessage.

(** [onSent?.(pendingMessage, error)]: the caller's callback, when there is
    one. *)
Definition runOnSent
    (onSent : option (SendbirdMessage -> option string -> M unit))
    (pendingMessage : SendbirdMessage) (error : option string) : M unit :=
  match onSent with
  | Some callback => callback pendingMessage error
  | None => ret tt
  end.

(** The callback handed to the channel's send call: [onSent] is the caller's
    optional callback, [sentMessage] and [error] are what the SDK reports. *)
Definition onSendCompleted
    (onSent : option (SendbirdMessage -> option string -> M unit))
    (pendingMessage : SendbirdMessage)
    (sentMessage : option SendbirdMessage) (error : option string) : M unit :=
  runOnSent onSent pendingMessage error ;;;
  match error, sentMessage with
  | None, Some sent => dispatch (updateMessages [sent] false)
  | _, _ => ret tt
  end.

(** What [resendMessage] asks of the message it is given. *)
Record FailedMessage := mkFailed {
  isResendable : bool;
  isUserMessage : bool;
  isFileMessage : bool
}.

(** [resendMessage]: [answer] is the outcome of the channel's resend call. *)
Definition resendMessage (failedMessage : FailedMessage)
    (answer : Result (option SendbirdMessage)) : M unit :=
  if negb (isResendable failedMessage) then ret tt
  else
    message <- (if isUserMessage failedMessage then await answer
                else if isFileMessage failedMessage then await answer
                else ret None) ;;
    match message with
    | Some sent => dispatch (updateMessages [sent] false)
    | None => ret tt
    end.

(** What can happen to a mounted hook. *)
Inductive HookEvent :=
| evMount (userId : option string) (created : MessageCollection)
| evRefresh (userId : option string) (created : MessageCollection)
| evHugeGap (uid : option string) (created : MessageCollection)
| evPrev (page : Result (list SendbirdMessage))
| evNext (nextMessages : list SendbirdMessage) (page : Result (list SendbirdMessage))
| evSnapshot (err : option string) (snapshot : list SendbirdMessage)
| evAdded (ms : list SendbirdMessage)
| evUpdated (ms : list SendbirdMessage)
| evDeleted (ms : list SendbirdMessage)
| evUnmount.

Definition handle (e : HookEvent) : M unit :=
  match e with
  | evMount userId created => mountEffect userId created
  | evRefresh userId created => refresh userId created
  | evHugeGap uid created => onHugeGapDetected uid created
  | evPrev page => prev page
  | evNext nextMessages page => next nextMessages page
  | evSnapshot err snapshot => onSnapshot err snapshot
  | evAdded ms => onMessagesAdded ms
  | evUpdated ms => onMessagesUpdated ms
  | evDeleted ms => onMessagesDeleted ms
  | evUnmount => unmount
  end.

Definition runEvents (es : list HookEvent) (h : Hook) : Hook :=
  fold_left (fun h e => snd (handle e h)) es h.

(** The collection an event brings with it has not been disposed. *)
Definition bringsLiveCollection (e : HookEvent) : Prop :=
  match e with
  | evMount _ created | evRefresh _ created | evHugeGap _ created => disposed created = false
  | _ => True
  end.

Definition liveStep (live : list nat) (c : SdkCall) : list nat :=
  match c with
  | callCreateMessageCollection id => live ++ [id]
  | callDispose id => filter (fun x => negb (Nat.eqb x id)) live
  | _ => live
  end.

(** The collections that a sequence of SDK calls has created and not
    disposed. *)
Definition liveCollections (calls : list SdkCall) : list nat :=
  fold_left liveStep calls [].

(** The collection the reference holds, when it has not been disposed. *)
Definition liveReference (c : option MessageCollection) : list nat :=
  match c with
  | Some col => if disposed col then [] else [collectionId col]
  | None => []
  end.

Definition freshHook (sortComparator : option Comparator) (st : State) : Hook :=
  {| sortComparator := sortComparator; collectionRef := None; store := st;
     dispatched := []; sdkCalls := [] |}.

(** The actions [init] dispatches. *)
Definition initActions (uid : option string) : list Action :=
  if truthy uid then [updateNextMessages [] true] else [].

(** The outcomes of the calls that [init] makes outside any [try]:
    [dispose()] on the existing collection, [createMessageCollection(...)]
    (the caller's [collectionCreator] or the SDK's builder), the
    [initialize(...)] chain and [setMessageCollectionHandler(...)]. *)
Record InitAnswers := mkAnswers {
  disposeAnswer : Result unit;
  createAnswer : Result MessageCollection;
  initializeAnswer : Result unit;
  setHandlerAnswer : Result unit
}.

(** [init] with the outcome of each of those calls given from outside; a call
    that throws ends [init] there.  [init] above is the case in which every
    call returns. *)
Definition initWith (uid : option string) (answers : InitAnswers) : M unit :=
  (c <- readRef ;;
   match c with
   | Some col =>
       sdk (callDispose (collectionId col)) ;;;
       await (disposeAnswer answers) ;;;
       writeRef (Some (markDisposed col))
   | None => ret tt
   end) ;;;
  if truthy uid then
    created <- await (createAnswer answers) ;;
    sdk (callCreateMessageCollection (collectionId created)) ;;;
    writeRef (Some created) ;;;
    dispatch (updateNextMessages [] true) ;;;
    channelMarkAs ;;;
    sdk (callInitialize (collectionId created)) ;;;
    await (initializeAnswer answers) ;;;
    sdk (callSetHandler (collectionId created)) ;;;
    await (setHandlerAnswer answers)
  else ret tt.

(** [refresh] over [initWith]: there is no [try] around [await init(userId)]. *)
Definition refreshWith (userId : option string) (answers : InitAnswers) : M unit :=
  dispatch (updateRefreshing true) ;;;
  initWith userId answers ;;;
  dispatch (updateRefreshing false).

Definition allReturn (created : MessageCollection) : InitAnswers :=
  {| disposeAnswer := Returned tt; createAnswer := Returned created;
     initializeAnswer := Returned tt; setHandlerAnswer := Returned tt |}.

Definition thrownBy {A} (r : Result A) : option string :=
  match r with
  | Thrown e => Some e
  | Returned _ => None
  end.

(** The error of the first call of [init] that throws, in the order in which
    [init] makes its calls; [dispose] is called only on an existing
    collection and the other three only for a viewer. *)
Definition firstFailure (c : option MessageCollection) (uid : option string)
    (answers : InitAnswers) : option string :=
  match c, thrownBy (disposeAnswer answers) with
  | Some _, Some e => Some e
  | _, _ =>
      if truthy uid then
        match thrownBy (createAnswer answers) with
        | Some e => Some e
        | None =>
            match thrownBy (initializeAnswer answers) with
            | Some e => Some e
            | None => thrownBy (setHandlerAnswer answers)
            end
        end
      else None
  end.


(* ------------------------------------------------------------------------- *)
(** ** createBaseLabel                                                       *)
(* ------------------------------------------------------------------------- *)

(** The members of the SDK's [GroupChannel] that the labels read. *)
Record GroupChannel := mkChannel {
  channelUrl : string;
  myPushTriggerOption : string
}.

(** The groups of [LabelSet], one module per group. *)
Module FRAGMENT.
Record t := mk {
  HEADER_TITLE : string;
  PREVIEW_TITLE : string -> GroupChannel -> string;
  PREVIEW_TITLE_CAPTION : GroupChannel -> string;
  PREVIEW_BODY : GroupChannel -> string
}.
End FRAGMENT.

Module TYPE_SELECTOR.
Record t := mk {
  HEADER_TITLE : string;
  GROUP : string;
  SUPER_GROUP : string;
  BROADCAST : string
}.
End TYPE_SELECTOR.

Module CHANNEL_MENU.
Record t := mk {
  TITLE : string -> GroupChannel -> string;
  MENU_NOTIFICATIONS : option GroupChannel -> string;
  MENU_LEAVE_CHANNEL : string
}.
End CHANNEL_MENU.

Module INVITE_MEMBERS.
Record t := mk {
  HEADER_TITLE : string;
  HEADER_RIGHT : forall T : Type, list T -> string
}.
End INVITE_MEMBERS.

Module GROUP_CHANNEL_LIST.
Record t := mk {
  FRAGMENT : FRAGMENT.t;
  TYPE_SELECTOR : TYPE_SELECTOR.t;
  CHANNEL_MENU : CHANNEL_MENU.t
}.
End GROUP_CHANNEL_LIST.

Record LabelSet := mkLabelSet {
  GROUP_CHANNEL_LIST : GROUP_CHANNEL_LIST.t;
  INVITE_MEMBERS : INVITE_MEMBERS.t
}.

(** [PartialDeep<LabelSet>]: every group and every label may be left out. *)
Module Partial.

Module FRAGMENT.
Record t := mk {
  HEADER_TITLE : option string;
  PREVIEW_TITLE : option (string -> GroupChannel -> string);
  PREVIEW_TITLE_CAPTION : option (GroupChannel -> string);
  PREVIEW_BODY : option (GroupChannel -> string)
}.
End FRAGMENT.

Module TYPE_SELECTOR.
Record t := mk {
  HEADER_TITLE : option string;
  GROUP : option string;
  SUPER_GROUP : option string;
  BROADCAST : option string
}.
End TYPE_SELECTOR.

Module CHANNEL_MENU.
Record t := mk {
  TITLE : option (string -> GroupChannel -> string);
  MENU_NOTIFICATIONS : option (option GroupChannel -> string);
  MENU_LEAVE_CHANNEL : option string
}.
End CHANNEL_MENU.

Module INVITE_MEMBERS.
Record t := mk {
  HEADER_TITLE : option string;
  HEADER_RIGHT : option (forall T : Type, list T -> string)
}.
End INVITE_MEMBERS.

Module GROUP_CHANNEL_LIST.
Record t := mk {
  FRAGMENT : option FRAGMENT.t;
  TYPE_SELECTOR : option TYPE_SELECTOR.t;
  CHANNEL_MENU : option CHANNEL_MENU.t
}.
End GROUP_CHANNEL_LIST.

Record LabelSet := mkLabelSet {
  GROUP_CHANNEL_LIST : option GROUP_CHANNEL_LIST.t;
  INVITE_MEMBERS : option INVITE_MEMBERS.t
}.

End Partial.

(** A key of an object literal followed by a spread: the spread object's
    value when the spread object is there and has the key, the literal's value
    otherwise.  Here a key is left out or has a value; [Runtime.spreadSlot]
    below also has the key that is present with [undefined]. *)
Definition spreadKey {G A} (group : option G) (key : G -> option A) (literal : A) : A :=
  match group with
  | Some g => JS.nullish (key g) literal
  | None => literal
  end.

(** [overrides?.GROUP_CHANNEL_LIST?.x] *)
Definition listGroup {G} (overrides : option Partial.LabelSet)
    (x : Partial.GROUP_CHANNEL_LIST.t -> option G) : option G :=
  match overrides with
  | Some o => match Partial.GROUP_CHANNEL_LIST o with
              | Some l => x l
              | None => None
              end
  | None => None
  end.

(** [overrides?.INVITE_MEMBERS] *)
Definition inviteGroup (overrides : option Partial.LabelSet) : option Partial.INVITE_MEMBERS.t :=
  match overrides with
  | Some o => Partial.INVITE_MEMBERS o
  | None => None
  end.

(** The default of [CHANNEL_MENU.MENU_NOTIFICATIONS]. *)
Definition menuNotifications (channel : option GroupChannel) : string :=
  match channel with
  | None => EmptyString
  | Some c =>
      if String.eqb (myPushTriggerOption c) "off"
      then "Turn on notifications"%string
      else "Turn off notifications"%string
  end.

(** The default of [INVITE_MEMBERS.HEADER_RIGHT]. *)
Definition headerRight (T : Type) (selectedUsers : list T) : string :=
  let len := List.length selectedUsers in
  if Nat.eqb len 0 then "Create"%string
  else (numberToString len ++ " Create")%string.

Section Labels.

(** The date locale type and the three helpers of [@sendbird/uikit-utils]
    that the default labels call; they are not among the sources. *)
Variable Locale : Type.
Variable getGroupChannelTitle : string -> GroupChannel -> string.
Variable getGroupChannelPreviewTime : GroupChannel -> Locale -> string.
Variable getGroupChannelLastMessage : GroupChannel -> string.

Definition createBaseLabel (dateLocale : Locale) (overrides : option Partial.LabelSet)
  : LabelSet :=
  let fragment := listGroup overrides Partial.GROUP_CHANNEL_LIST.FRAGMENT in
  let typeSelector := listGroup overrides Partial.GROUP_CHANNEL_LIST.TYPE_SELECTOR in
  let invite := inviteGroup overrides in
  {| GROUP_CHANNEL_LIST :=
       {| GROUP_CHANNEL_LIST.FRAGMENT :=
            {| FRAGMENT.HEADER_TITLE :=
                 spreadKey fragment Partial.FRAGMENT.HEADER_TITLE "Channels"%string;
               FRAGMENT.PREVIEW_TITLE :=
                 spreadKey fragment Partial.FRAGMENT.PREVIEW_TITLE
                   (fun currentUserId channel => getGroupChannelTitle currentUserId channel);
               FRAGMENT.PREVIEW_TITLE_CAPTION :=
                 spreadKey fragment Partial.FRAGMENT.PREVIEW_TITLE_CAPTION
                   (fun channel => getGroupChannelPreviewTime channel dateLocale);
               FRAGMENT.PREVIEW_BODY :=
                 spreadKey fragment Partial.FRAGMENT.PREVIEW_BODY
                   (fun channel => getGroupChannelLastMessage channel) |};
          GROUP_CHANNEL_LIST.TYPE_SELECTOR :=
            {| TYPE_SELECTOR.HEADER_TITLE :=
                 spreadKey typeSelector Partial.TYPE_SELECTOR.HEADER_TITLE "Channel type"%string;
               TYPE_SELECTOR.GROUP :=
                 spreadKey typeSelector Partial.TYPE_SELECTOR.GROUP "Group"%string;
               TYPE_SELECTOR.SUPER_GROUP :=
                 spreadKey typeSelector Partial.TYPE_SELECTOR.SUPER_GROUP "Super group"%string;
               TYPE_SELECTOR.BROADCAST :=
                 spreadKey typeSelector Partial.TYPE_SELECTOR.BROADCAST "Broadcast"%string |};
          GROUP_CHANNEL_LIST.CHANNEL_MENU :=
            {| CHANNEL_MENU.TITLE :=
                 fun currentUserId channel => getGroupChannelTitle currentUserId channel;
               CHANNEL_MENU.MENU_NOTIFICATIONS := menuNotifications;
               CHANNEL_MENU.MENU_LEAVE_CHANNEL := "Leave channel"%string |} |};
     INVITE_MEMBERS :=
       {| INVITE_MEMBERS.HEADER_TITLE :=
            spreadKey invite Partial.INVITE_MEMBERS.HEADER_TITLE "Select members"%string;
          INVITE_MEMBERS.HEADER_RIGHT :=
            spreadKey invite Partial.INVITE_MEMBERS.HEADER_RIGHT headerRight |} |}.

End Labels.


(* ------------------------------------------------------------------------- *)
(** ** createBaseLabel at run time                                           *)
(* ------------------------------------------------------------------------- *)

(** A property of an object built by an object literal followed by a spread:
    it holds a value, or [undefined] when the spread object has the key with
    the value [undefined]. *)
Inductive Slot (A : Type) : Type :=
| holds (a : A)
| undefinedSlot.
Arguments holds {A} a.
Arguments undefinedSlot {A}.

(** [createBaseLabel] with the overrides as a caller can pass them: a key of
    an override group is left out ([None]), or present with a value or with
    [undefined].  A group that is left out, [undefined] or [null] spreads
    nothing ([None]).  [createBaseLabel] above is the view of it for overrides
    in which no key is present with [undefined]. *)
Module Runtime.

Module FRAGMENT.
Record t := mk {
  HEADER_TITLE : Slot string;
  PREVIEW_TITLE : Slot (string -> GroupChannel -> string);
  PREVIEW_TITLE_CAPTION : Slot (GroupChannel -> string);
  PREVIEW_BODY : Slot (GroupChannel -> string)
}.
End FRAGMENT.

Module TYPE_SELECTOR.
Record t := mk {
  HEADER_TITLE : Slot string;
  GROUP : Slot string;
  SUPER_GROUP : Slot string;
  BROADCAST : Slot string
}.
End TYPE_SELECTOR.

Module INVITE_MEMBERS.
Record t := mk {
  HEADER_TITLE : Slot string;
  HEADER_RIGHT : Slot (forall T : Type, list T -> string)
}.
End INVITE_MEMBERS.

Module GROUP_CHANNEL_LIST.
Record t := mk {
  FRAGMENT : FRAGMENT.t;
  TYPE_SELECTOR : TYPE_SELECTOR.t;
  CHANNEL_MENU : CHANNEL_MENU.t
}.
End GROUP_CHANNEL_LIST.

Record LabelSet := mkLabelSet {
  GROUP_CHANNEL_LIST : GROUP_CHANNEL_LIST.t;
  INVITE_MEMBERS : INVITE_MEMBERS.t
}.

Module Overrides.

Module FRAGMENT.
Record t := mk {
  HEADER_TITLE : option (Slot string);
  PREVIEW_TITLE : option (Slot (string -> GroupChannel -> string));
  PREVIEW_TITLE_CAPTION : option (Slot (GroupChannel -> string));
  PREVIEW_BODY : option (Slot (GroupChannel -> string))
}.
End FRAGMENT.

Module TYPE_SELECTOR.
Record t := mk {
  HEADER_TITLE : option (Slot string);
  GROUP : option (Slot string);
  SUPER_GROUP : option (Slot string);
  BROADCAST : option (Slot string)
}.
End TYPE_SELECTOR.

Module CHANNEL_MENU.
Record t := mk {
  TITLE : option (Slot (string -> GroupChannel -> string));
  MENU_NOTIFICATIONS : option (Slot (option GroupChannel -> string));
  MENU_LEAVE_CHANNEL : option (Slot string)
}.
End CHANNEL_MENU.

Module INVITE_MEMBERS.
Record t := mk {
  HEADER_TITLE : option (Slot string);
  HEADER_RIGHT : option (Slot (forall T : Type, list T -> string))
}.
End INVITE_MEMBERS.

Module GROUP_CHANNEL_LIST.
Record t := mk {
  FRAGMENT : option FRAGMENT.t;
  TYPE_SELECTOR : option TYPE_SELECTOR.t;
  CHANNEL_MENU : option CHANNEL_MENU.t
}.
End GROUP_CHANNEL_LIST.

Record LabelSet := mkLabelSet {
  GROUP_CHANNEL_LIST : option GROUP_CHANNEL_LIST.t;
  INVITE_MEMBERS : option INVITE_MEMBERS.t
}.

End Overrides.

(** A key of an object literal followed by a spread: what the spread object
    has under the key when it has the key, the literal's value otherwise. *)
Definition spreadSlot {G A} (group : option G) (key : G -> option (Slot A)) (literal : A)
  : Slot A :=
  match group with
  | Some g => match key g with
              | Some s => s
              | None => holds literal
              end
  | None => holds literal
  end.

(** [overrides?.GROUP_CHANNEL_LIST?.x] *)
Definition listGroup {G} (overrides : option Overrides.LabelSet)
    (x : Overrides.GROUP_CHANNEL_LIST.t -> option G) : option G :=
  match overrides with
  | Some o => match Overrides.GROUP_CHANNEL_LIST o with
              | Some l => x l
              | None => None
              end
  | None => None
  end.

(** [overrides?.INVITE_MEMBERS] *)
Definition inviteGroup (overrides : option Overrides.LabelSet)
  : option Overrides.INVITE_MEMBERS.t :=
  match overrides with
  | Some o => Overrides.INVITE_MEMBERS o
  | None => None
  end.

Section Labels.

Variable Locale : Type.
Variable getGroupChannelTitle : string -> GroupChannel -> string.
Variable getGroupChannelPreviewTime : GroupChannel -> Locale -> string.
Variable getGroupChannelLastMessage : GroupChannel -> string.

Definition createBaseLabel (dateLocale : Locale) (overrides : option Overrides.LabelSet)
  : LabelSet :=
  let fragment := listGroup overrides Overrides.GROUP_CHANNEL_LIST.FRAGMENT in
  let typeSelector := listGroup overrides Overrides.GROUP_CHANNEL_LIST.TYPE_SELECTOR in
  let invite := inviteGroup overrides in
  {| GROUP_CHANNEL_LIST :=
       {| GROUP_CHANNEL_LIST.FRAGMENT :=
            {| FRAGMENT.HEADER_TITLE :=
                 spreadSlot fragment Overrides.FRAGMENT.HEADER_TITLE "Channels"%string;
               FRAGMENT.PREVIEW_TITLE :=
                 spreadSlot fragment Overrides.FRAGMENT.PREVIEW_TITLE
                   (fun currentUserId channel => getGroupChannelTitle currentUserId channel);
               FRAGMENT.PREVIEW_TITLE_CAPTION :=
                 spreadSlot fragment Overrides.FRAGMENT.PREVIEW_TITLE_CAPTION
                   (fun channel => getGroupChannelPreviewTime channel dateLocale);
               FRAGMENT.PREVIEW_BODY :=
                 spreadSlot fragment Overrides.FRAGMENT.PREVIEW_BODY
                   (fun channel => getGroupChannelLastMessage channel) |};
          GROUP_CHANNEL_LIST.TYPE_SELECTOR :=
            {| TYPE_SELECTOR.HEADER_TITLE :=
                 spreadSlot typeSelector Overrides.TYPE_SELECTOR.HEADER_TITLE
                   "Channel type"%string;
               TYPE_SELECTOR.GROUP :=
                 spreadSlot typeSelector Overrides.TYPE_SELECTOR.GROUP "Group"%string;
               TYPE_SELECTOR.SUPER_GROUP :=
                 spreadSlot typeSelector Overrides.TYPE_SELECTOR.SUPER_GROUP
                   "Super group"%string;
               TYPE_SELECTOR.BROADCAST :=
                 spreadSlot typeSelector Overrides.TYPE_SELECTOR.BROADCAST
                   "Broadcast"%string |};
          GROUP_CHANNEL_LIST.CHANNEL_MENU :=
            {| CHANNEL_MENU.TITLE :=
                 fun currentUserId channel => getGroupChannelTitle currentUserId channel;
               CHANNEL_MENU.MENU_NOTIFICATIONS := menuNotifications;
               CHANNEL_MENU.MENU_LEAVE_CHANNEL := "Leave channel"%string |} |};
     INVITE_MEMBERS :=
       {| INVITE_MEMBERS.HEADER_TITLE :=
            spreadSlot invite Overrides.INVITE_MEMBERS.HEADER_TITLE "Select members"%string;
          INVITE_MEMBERS.HEADER_RIGHT :=
            spreadSlot invite Overrides.INVITE_MEMBERS.HEADER_RIGHT headerRight |} |}.

End Labels.

End Runtime.

(** What a spread leaves under one key, stated case by case: the spread
    object's own entry when it has the key, the literal's value when the
    object has no such key or is not there. *)
Definition spreadOf {G A} (group : option G) (key : G -> option (Slot A)) (literal : A)
    (slot : Slot A) : Prop :=
  (forall g s, group = Some g -> key g = Some s -> slot = s) /\
  (forall g, group = Some g -> key g = None -> slot = holds literal) /\
  (group = None -> slot = holds literal).

(** The overrides with every key that is present with [undefined] read as
    left out. *)
Definition typedKey {A} (k : option (Slot A)) : option A :=
  match k with
  | Some (holds a) => Some a
  | _ => None
  end.

Definition typedFragment (f : Runtime.Overrides.FRAGMENT.t) : Partial.FRAGMENT.t :=
  {| Partial.FRAGMENT.HEADER_TITLE := typedKey (Runtime.Overrides.FRAGMENT.HEADER_TITLE f);
     Partial.FRAGMENT.PREVIEW_TITLE := typedKey (Runtime.Overrides.FRAGMENT.PREVIEW_TITLE f);
     Partial.FRAGMENT.PREVIEW_TITLE_CAPTION :=
       typedKey (Runtime.Overrides.FRAGMENT.PREVIEW_TITLE_CAPTION f);
     Partial.FRAGMENT.PREVIEW_BODY := typedKey (Runtime.Overrides.FRAGMENT.PREVIEW_BODY f) |}.

Definition typedSelector (t : Runtime.Overrides.TYPE_SELECTOR.t) : Partial.TYPE_SELECTOR.t :=
  {| Partial.TYPE_SELECTOR.HEADER_TITLE :=
       typedKey (Runtime.Overrides.TYPE_SELECTOR.HEADER_TITLE t);
     Partial.TYPE_SELECTOR.GROUP := typedKey (Runtime.Overrides.TYPE_SELECTOR.GROUP t);
     Partial.TYPE_SELECTOR.SUPER_GROUP :=
       typedKey (Runtime.Overrides.TYPE_SELECTOR.SUPER_GROUP t);
     Partial.TYPE_SELECTOR.BROADCAST := typedKey (Runtime.Overrides.TYPE_SELECTOR.BROADCAST t) |}.

Definition typedMenu (c : Runtime.Overrides.CHANNEL_MENU.t) : Partial.CHANNEL_MENU.t :=
  {| Partial.CHANNEL_MENU.TITLE := typedKey (Runtime.Overrides.CHANNEL_MENU.TITLE c);
     Partial.CHANNEL_MENU.MENU_NOTIFICATIONS :=
       typedKey (Runtime.Overrides.CHANNEL_MENU.MENU_NOTIFICATIONS c);
     Partial.CHANNEL_MENU.MENU_LEAVE_CHANNEL :=
       typedKey (Runtime.Overrides.CHANNEL_MENU.MENU_LEAVE_CHANNEL c) |}.

Definition typedInvite (i : Runtime.Overrides.INVITE_MEMBERS.t) : Partial.INVITE_MEMBERS.t :=
  {| Partial.INVITE_MEMBERS.HEADER_TITLE :=
       typedKey (Runtime.Overrides.INVITE_MEMBERS.HEADER_TITLE i);
     Partial.INVITE_MEMBERS.HEADER_RIGHT :=
       typedKey (Runtime.Overrides.INVITE_MEMBERS.HEADER_RIGHT i) |}.

Definition typedList (l : Runtime.Overrides.GROUP_CHANNEL_LIST.t) : Partial.GROUP_CHANNEL_LIST.t :=
  {| Partial.GROUP_CHANNEL_LIST.FRAGMENT :=
       option_map typedFragment (Runtime.Overrides.GROUP_CHANNEL_LIST.FRAGMENT l);
     Partial.GROUP_CHANNEL_LIST.TYPE_SELECTOR :=
       option_map typedSelector (Runtime.Overrides.GROUP_CHANNEL_LIST.TYPE_SELECTOR l);
     Partial.GROUP_CHANNEL_LIST.CHANNEL_MENU :=
       option_map typedMenu (Runtime.Overrides.GROUP_CHANNEL_LIST.CHANNEL_MENU l) |}.

Definition typedOverrides (o : Runtime.Overrides.LabelSet) : Partial.LabelSet :=
  {| Partial.GROUP_CHANNEL_LIST :=
       option_map typedList (Runtime.Overrides.GROUP_CHANNEL_LIST o);
     Partial.INVITE_MEMBERS :=
       option_map typedInvite (Runtime.Overrides.INVITE_MEMBERS o) |}.

(** No key of the group that reaches a spread is present with [undefined]. *)
Definition keyDefined {G A} (group : option G) (key : G -> option (Slot A)) : Prop :=
  forall g, group = Some g -> key g <> Some undefinedSlot.

Definition noUndefinedKey (overrides : option Runtime.Overrides.LabelSet) : Prop :=
  let fragment := Runtime.listGroup overrides Runtime.Overrides.GROUP_CHANNEL_LIST.FRAGMENT in
  let selector :=
    Runtime.listGroup overrides Runtime.Overrides.GROUP_CHANNEL_LIST.TYPE_SELECTOR in
  let invite := Runtime.inviteGroup overrides in
  keyDefined fragment Runtime.Overrides.FRAGMENT.HEADER_TITLE /\
  keyDefined fragment Runtime.Overrides.FRAGMENT.PREVIEW_TITLE /\
  keyDefined fragment Runtime.Overrides.FRAGMENT.PREVIEW_TITLE_CAPTION /\
  keyDefined fragment Runtime.Overrides.FRAGMENT.PREVIEW_BODY /\
  keyDefined selector Runtime.Overrides.TYPE_SELECTOR.HEADER_TITLE /\
  keyDefined selector Runtime.Overrides.TYPE_SELECTOR.GROUP /\
  keyDefined selector Runtime.Overrides.TYPE_SELECTOR.SUPER_GROUP /\
  keyDefined selector Runtime.Overrides.TYPE_SELECTOR.BROADCAST /\
  keyDefined invite Runtime.Overrides.INVITE_MEMBERS.HEADER_TITLE /\
  keyDefined invite Runtime.Overrides.INVITE_MEMBERS.HEADER_RIGHT.

(** A label set whose every spread key holds a value. *)
Definition atRuntime (labels : LabelSet) : Runtime.LabelSet :=
  let f := GROUP_CHANNEL_LIST.FRAGMENT (GROUP_CHANNEL_LIST labels) in
  let t := GROUP_CHANNEL_LIST.TYPE_SELECTOR (GROUP_CHANNEL_LIST labels) in
  let i := INVITE_MEMBERS labels in
  {| Runtime.GROUP_CHANNEL_LIST :=
       {| Runtime.GROUP_CHANNEL_LIST.FRAGMENT :=
            {| Runtime.FRAGMENT.HEADER_TITLE := holds (FRAGMENT.HEADER_TITLE f);
               Runtime.FRAGMENT.PREVIEW_TITLE := holds (FRAGMENT.PREVIEW_TITLE f);
               Runtime.FRAGMENT.PREVIEW_TITLE_CAPTION := holds (FRAGMENT.PREVIEW_TITLE_CAPTION f);
               Runtime.FRAGMENT.PREVIEW_BODY := holds (FRAGMENT.PREVIEW_BODY f) |};
          Runtime.GROUP_CHANNEL_LIST.TYPE_SELECTOR :=
            {| Runtime.TYPE_SELECTOR.HEADER_TITLE := holds (TYPE_SELECTOR.HEADER_TITLE t);
               Runtime.TYPE_SELECTOR.GROUP := holds (TYPE_SELECTOR.GROUP t);
               Runtime.TYPE_SELECTOR.SUPER_GROUP := holds (TYPE_SELECTOR.SUPER_GROUP t);
               Runtime.TYPE_SELECTOR.BROADCAST := holds (TYPE_SELECTOR.BROADCAST t) |};
          Runtime.GROUP_CHANNEL_LIST.CHANNEL_MENU :=
            GROUP_CHANNEL_LIST.CHANNEL_MENU (GROUP_CHANNEL_LIST labels) |};
     Runtime.INVITE_MEMBERS :=
       {| Runtime.INVITE_MEMBERS.HEADER_TITLE := holds (INVITE_MEMBERS.HEADER_TITLE i);
          Runtime.INVITE_MEMBERS.HEADER_RIGHT := holds (INVITE_MEMBERS.HEADER_RIGHT i) |} |}.

(* ------------------------------------------------------------------------- *)
(** ** Range helpers: proofs                                                 *)
(* ------------------------------------------------------------------------- *)

Lemma select_spec compare a num :
  rangeHelpers.select compare (start a) num (end_ a) = true <-> modeContains compare a num.
Proof.
  destruct compare; simpl;
    unfold rangeHelpers.inRangeUnderOver, rangeHelpers.inRangeUnderMore,
           rangeHelpers.inRangeLessOver, rangeHelpers.inRangeLessMore;
    rewrite andb_true_iff, ?Z.ltb_lt, ?Z.leb_le; tauto.
Qed.

(** C8. For every pair of ranges and each of the four inclusivity modes,
    [intersection a b mode] holds exactly when [a] mode-contains the start of
    [b] or mode-contains the end of [b].  The predicate is a total function of
    its three arguments, so it reads and writes nothing else. *)
Theorem intersection_iff_contains_endpoint (a b : Range) (compare : Compare) :
  rangeHelpers.intersection a b compare = true <->
  modeContains compare a (start b) \/ modeContains compare a (end_ b).
Proof.
  unfold rangeHelpers.intersection.
  rewrite orb_true_iff, !select_spec. reflexivity.
Qed.

Lemma hits_iff selection it :
  hits selection it = true <-> endpointInside selection it.
Proof.
  unfold hits, rangeHelpers.intersection.
  rewrite orb_true_iff, !select_spec. simpl.
  unfold endpointInside. tauto.
Qed.

Lemma hits_false_iff selection it :
  hits selection it = false <-> ~ endpointInside selection it.
Proof.
  rewrite <- hits_iff. destruct (hits selection it); split; congruence.
Qed.

(* ------------------------------------------------------------------------- *)
(** ** Range reconciliation: proofs                                          *)
(* ------------------------------------------------------------------------- *)

Lemma reconcileOne_right k p it :
  p <= start (range it) ->
  reconcileOne k p it =
  {| user := user it;
     range := {| start := start (range it) + k; end_ := end_ (range it) + k |} |}.
Proof.
  intros H. unfold reconcileOne.
  destruct (Z.leb_spec p (start (range it))); [reflexivity | lia].
Qed.

Lemma reconcileOne_left k p it :
  start (range it) < p -> reconcileOne k p it = it.
Proof.
  intros H. unfold reconcileOne.
  destruct (Z.leb_spec p (start (range it))); [lia | reflexivity].
Qed.

Lemma reconcileOne_user k p it : user (reconcileOne k p it) = user it.
Proof. unfold reconcileOne. destruct (p <=? start (range it)); reflexivity. Qed.

Lemma reconcileOne_rangeLength k p it :
  rangeLength (reconcileOne k p it) = rangeLength it.
Proof.
  unfold reconcileOne, rangeLength.
  destruct (p <=? start (range it)); simpl; lia.
Qed.

(** C6. For every offset [k], edit position [p] and mention list, the mention
    at any position of the list comes back at the same position with both its
    start and its end moved by exactly [k] when its start is at or after [p],
    and comes back unchanged when its start is before [p]. *)
Theorem reconcile_shifts_at_or_after_edit
    (k p : Z) (ms : list MentionedUser) (i : nat) (it : MentionedUser) :
  nth_error ms i = Some it ->
  (p <= start (range it) ->
     nth_error (reconcileRangeInMentionedUsers k p ms) i =
     Some {| user := user it;
             range := {| start := start (range it) + k;
                         end_ := end_ (range it) + k |} |}) /\
  (start (range it) < p ->
     nth_error (reconcileRangeInMentionedUsers k p ms) i = Some it).
Proof.
  intros Hnth. unfold reconcileRangeInMentionedUsers.
  rewrite nth_error_map, Hnth. simpl. split; intros H.
  - now rewrite reconcileOne_right.
  - now rewrite reconcileOne_left.
Qed.

Lemma reconcile_shifts_at_or_after_edit_witness :
  let alice := mkUser "u1" "Al" in
  let bob := mkUser "u2" "Bo" in
  let ms := [mkMention alice (mkRange 0 3); mkMention bob (mkRange 8 11)] in
  nth_error (reconcileRangeInMentionedUsers 2 5 ms) 1 = Some (mkMention bob (mkRange 10 13)) /\
  nth_error (reconcileRangeInMentionedUsers 2 5 ms) 0 = Some (mkMention alice (mkRange 0 3)).
Proof.
  intros alice bob ms. split.
  - apply (reconcile_shifts_at_or_after_edit 2 5 ms 1 (mkMention bob (mkRange 8 11)));
      [reflexivity | simpl; lia].
  - apply (reconcile_shifts_at_or_after_edit 2 5 ms 0 (mkMention alice (mkRange 0 3)));
      [reflexivity | simpl; lia].
Defined.

(** C9. For every offset, edit position and mention list, the result has the
    same length, carries the same users at the same positions, and every
    mention keeps the length of its range: only positions move. *)
Theorem reconcile_preserves_shape (k p : Z) (ms : list MentionedUser) :
  let r := reconcileRangeInMentionedUsers k p ms in
  List.length r = List.length ms /\
  map user r = map user ms /\
  map rangeLength r = map rangeLength ms.
Proof.
  unfold reconcileRangeInMentionedUsers. simpl. split; [apply length_map |].
  rewrite !map_map. split; apply map_ext; intros it.
  - apply reconcileOne_user.
  - apply reconcileOne_rangeLength.
Qed.

(* ------------------------------------------------------------------------- *)
(** ** Removal under a selection: proofs                                     *)
(* ------------------------------------------------------------------------- *)

Lemma maxEnd_nonneg l : 0 <= maxEnd l.
Proof. induction l; simpl; lia. Qed.

(** The fold of the [filter] callback, from any value of the three variables. *)
Lemma removeStep_fold selection ms : forall acc,
  let r := fold_left (removeStep selection) ms acc in
  filtered r = filtered acc ++ keptIn selection ms /\
  removedOffset r = removedOffset acc - sumZ (map rangeLength (removedIn selection ms)) /\
  (0 <= lastSelection acc ->
   lastSelection r = Z.max (lastSelection acc) (maxEnd (removedIn selection ms))).
Proof.
  induction ms as [|it ms IH]; intros acc; simpl.
  - rewrite app_nil_r. repeat split; lia.
  - destruct (IH (removeStep selection acc it)) as (Hf & Ho & Hl).
    unfold removeStep in *. fold (hits selection it) in *.
    destruct (hits selection it) eqn:E; simpl in *.
    + repeat split.
      * exact Hf.
      * rewrite Ho. unfold rangeLength. lia.
      * intros H0. rewrite Hl by lia. lia.
    + repeat split.
      * rewrite Hf, <- app_assoc. reflexivity.
      * exact Ho.
      * exact Hl.
Qed.

Lemma removal_unfold selection ms :
  let r := removeMentionedUsersInSelection selection ms in
  filtered r = keptIn selection ms /\
  removedOffset r = - sumZ (map rangeLength (removedIn selection ms)) /\
  lastSelection r = maxEnd (removedIn selection ms).
Proof.
  unfold removeMentionedUsersInSelection.
  destruct (removeStep_fold selection ms
              {| filtered := []; lastSelection := 0; removedOffset := 0 |})
    as (Hf & Ho & Hl).
  simpl in *. repeat split.
  - exact Hf.
  - rewrite Ho. lia.
  - rewrite Hl by lia. pose proof (maxEnd_nonneg (removedIn selection ms)). lia.
Qed.

Lemma maxEnd_upper l it : In it l -> end_ (range it) <= maxEnd l.
Proof.
  induction l as [|x l IH]; simpl; [tauto|].
  intros [-> | H]; [lia | specialize (IH H); lia].
Qed.

Lemma maxEnd_cases l :
  maxEnd l = 0 \/ exists it, In it l /\ maxEnd l = end_ (range it).
Proof.
  induction l as [|x l IH]; simpl; [now left|].
  destruct (Z.le_gt_cases (maxEnd l) (end_ (range x))) as [Hle | Hgt].
  - right. exists x. split; [now left | lia].
  - destruct IH as [H0 | (y & Hy & Hmax)].
    + left. lia.
    + right. exists y. split; [now right | lia].
Qed.

Lemma maxEnd_attained l :
  (exists it, In it l /\ 0 <= end_ (range it)) ->
  exists it, In it l /\ maxEnd l = end_ (range it).
Proof.
  intros (it & Hin & Hpos).
  destruct (maxEnd_cases l) as [H0 | H]; [|exact H].
  exists it. split; [exact Hin|].
  pose proof (maxEnd_upper l it Hin). lia.
Qed.

Lemma keptIn_all selection ms :
  (forall it, In it ms -> hits selection it = false) -> keptIn selection ms = ms.
Proof.
  induction ms as [|x ms IH]; simpl; intros H; [reflexivity|].
  rewrite (H x) by now left. simpl. f_equal. apply IH. intros; apply H. now right.
Qed.

Lemma removedIn_none selection ms :
  (forall it, In it ms -> hits selection it = false) -> removedIn selection ms = [].
Proof.
  induction ms as [|x ms IH]; simpl; intros H; [reflexivity|].
  rewrite (H x) by now left. apply IH. intros; apply H. now right.
Qed.

(** For well-formed ranges, the code's test is the closed-closed overlap less
    the case in which the mention strictly contains the selection. *)
Lemma endpointInside_iff selection it :
  start selection <= end_ selection ->
  start (range it) <= end_ (range it) ->
  (endpointInside selection it <->
   closedOverlap selection it /\ ~ strictlyEncloses selection it).
Proof.
  unfold endpointInside, closedOverlap, strictlyEncloses. intros; lia.
Qed.

(** C1 (amended). For every selection [[a,b]] and every list of mentions,
    [removeMentionedUsersInSelection] keeps, in their order, exactly the
    mentions that have neither end point in [[a,b]]: it removes a mention if
    and only if [a <= start <= b] or [a <= end <= b].  For well-formed ranges
    these are the mentions with [start <= b] and [end >= a] that do not
    strictly contain the selection; a mention that strictly contains the
    selection is kept. *)
Theorem removal_removes_endpoint_hits (selection : Range) (ms : list MentionedUser) :
  let r := removeMentionedUsersInSelection selection ms in
  filtered r = filter (fun it => negb (hits selection it)) ms /\
  (forall it, In it (filtered r) <-> In it ms /\ ~ endpointInside selection it) /\
  (forall it, start selection <= end_ selection ->
              start (range it) <= end_ (range it) ->
              (endpointInside selection it <->
               closedOverlap selection it /\ ~ strictlyEncloses selection it)) /\
  (forall it, In it ms -> strictlyEncloses selection it -> In it (filtered r)).
Proof.
  destruct (removal_unfold selection ms) as (Hf & _ & _). simpl in *.
  assert (Hin : forall it,
             In it (filtered (removeMentionedUsersInSelection selection ms)) <->
             In it ms /\ ~ endpointInside selection it).
  { intros it. rewrite Hf. unfold keptIn. rewrite filter_In, negb_true_iff.
    rewrite hits_false_iff. reflexivity. }
  split; [exact Hf|]. split; [exact Hin|]. split.
  - intros it. apply endpointInside_iff.
  - intros it Hit Henc. apply Hin. split; [exact Hit|].
    unfold endpointInside, strictlyEncloses in *. lia.
Qed.

(** C1 as stated fails: with the selection [[3,4]], the mention with range
    [[1,10]] satisfies [start <= b] and [end >= a] and is not removed. *)
Lemma removal_keeps_enclosing_mention :
  ~ (forall (selection : Range) (ms : list MentionedUser) (it : MentionedUser),
       In it ms ->
       (In it (filtered (removeMentionedUsersInSelection selection ms)) <->
        ~ closedOverlap selection it)).
Proof.
  intros H.
  pose (it := mkMention (mkUser "u1" "Al") (mkRange 1 10)).
  destruct (H (mkRange 3 4) [it] it (or_introl eq_refl)) as [Hkept _].
  apply Hkept.
  - simpl. now left.
  - unfold closedOverlap. simpl. lia.
Qed.

Lemma removal_removes_endpoint_hits_witness :
  let selection := mkRange 3 4 in
  let wide := mkMention (mkUser "u1" "Al") (mkRange 1 10) in
  let edge := mkMention (mkUser "u2" "Bo") (mkRange 4 6) in
  In wide (filtered (removeMentionedUsersInSelection selection [wide; edge])) /\
  ~ In edge (filtered (removeMentionedUsersInSelection selection [wide; edge])).
Proof.
  intros selection wide edge.
  destruct (removal_removes_endpoint_hits selection [wide; edge])
    as (_ & Hin & _ & Henc).
  split.
  - apply Henc; [now left | unfold strictlyEncloses; simpl; lia].
  - intros H. apply Hin in H as (_ & Hno). apply Hno.
    unfold endpointInside. simpl. lia.
Defined.

(** C10. For every selection and mention list, [removedOffset] is the negated
    sum of the lengths of the removed mentions and [lastSelection] is the
    largest end among the removed mentions (the maximum starts from [0]): it
    bounds the end of every removed mention and, ends being text offsets, is
    the end of one of them.  When no mention is hit the list comes back
    unchanged with [lastSelection = 0] and [removedOffset = 0]. *)
Theorem removal_offset_and_last_selection (selection : Range) (ms : list MentionedUser) :
  let r := removeMentionedUsersInSelection selection ms in
  let gone := filter (fun it => rangeHelpers.intersection selection (range it) lessMore) ms in
  removedOffset r = - sumZ (map (fun it => end_ (range it) - start (range it)) gone) /\
  lastSelection r = maxEnd gone /\
  (forall it, In it gone -> end_ (range it) <= lastSelection r) /\
  ((exists it, In it gone /\ 0 <= end_ (range it)) ->
   exists it, In it gone /\ lastSelection r = end_ (range it)) /\
  ((forall it, In it ms ->
      rangeHelpers.intersection selection (range it) lessMore = false) ->
   filtered r = ms /\ lastSelection r = 0 /\ removedOffset r = 0).
Proof.
  destruct (removal_unfold selection ms) as (Hf & Ho & Hl). simpl in *.
  fold (hits selection) (removedIn selection ms).
  repeat split.
  - exact Ho.
  - exact Hl.
  - intros it Hit. rewrite Hl. now apply maxEnd_upper.
  - intros Hex. rewrite Hl. now apply maxEnd_attained.
  - rewrite Hf. now apply keptIn_all.
  - rewrite Hl, removedIn_none; [reflexivity | assumption].
  - rewrite Ho, removedIn_none; [reflexivity | assumption].
Qed.

Lemma removal_offset_and_last_selection_witness :
  let selection := mkRange 2 5 in
  let first := mkMention (mkUser "u1" "Al") (mkRange 0 3) in
  let second := mkMention (mkUser "u2" "Bo") (mkRange 7 9) in
  let r := removeMentionedUsersInSelection selection [first; second] in
  removedOffset r = -3 /\ lastSelection r = 3 /\
  (exists it, In it [first] /\ lastSelection r = end_ (range it)) /\
  filtered (removeMentionedUsersInSelection selection [second]) = [second].
Proof.
  intros selection first second r.
  destruct (removal_offset_and_last_selection selection [first; second])
    as (Ho & Hl & _ & Hat & _).
  destruct (removal_offset_and_last_selection selection [second])
    as (_ & _ & _ & _ & Hnone).
  split; [exact Ho|]. split; [exact Hl|]. split.
  - apply Hat. exists first. split; [now left | simpl; lia].
  - apply Hnone. intros it [<- | []]. reflexivity.
Defined.

(* ------------------------------------------------------------------------- *)
(** ** String primitives: proofs                                             *)
(* ------------------------------------------------------------------------- *)

Lemma prefix_iff p : forall s,
  prefix p s = true <-> exists post, s = (p ++ post)%string.
Proof.
  induction p as [|a p IH]; intros s.
  - split; [intros _; now exists s | intros _; now destruct s].
  - destruct s as [|b s]; simpl.
    + split; [discriminate | intros (post & H); discriminate].
    + destruct (ascii_dec a b) as [-> | Hne].
      * rewrite IH. split; intros (post & H); exists post; congruence.
      * split; [discriminate | intros (post & H); congruence].
Qed.

Lemma occursIn_prefix p s : prefix p s = true -> occursIn p s.
Proof.
  intros H. apply prefix_iff in H as (post & ->).
  exists EmptyString, post. reflexivity.
Qed.

Lemma occursIn_cases p s :
  occursIn p s ->
  prefix p s = true \/ exists c s', s = String c s' /\ occursIn p s'.
Proof.
  intros (pre & post & ->). destruct pre as [|c pre]; simpl.
  - left. apply prefix_iff. now exists post.
  - right. exists c, (pre ++ p ++ post)%string. split; [reflexivity|].
    now exists pre, post.
Qed.


Lemma substring_all s : substring 0 (String.length s) s = s.
Proof. induction s; simpl; congruence. Qed.


Lemma indexOfFrom_spec p : forall s i,
  (JS.indexOfFrom p s i = -1 /\ ~ occursIn p s /\ prefix p s = false) \/
  (exists n : nat,
      JS.indexOfFrom p s i = i + Z.of_nat n /\ (n <= String.length s)%nat /\
      prefix p (suffixFrom n s) = true).
Proof.
  induction s as [|c s IH]; intros i.
  - cbn [JS.indexOfFrom]. destruct (prefix p EmptyString) eqn:E.
    + right. exists O. split; [simpl; lia|]. split; [simpl; lia | exact E].
    + left. split; [reflexivity|]. split; [|reflexivity].
      intros H. apply occursIn_cases in H as [H | (c & s' & H & _)]; congruence.
  - cbn [JS.indexOfFrom]. destruct (prefix p (String c s)) eqn:E.
    + right. exists O. unfold suffixFrom. rewrite Nat.sub_0_r, substring_all.
      split; [simpl; lia|]. split; [simpl; lia | exact E].
    + destruct (IH (i + 1)) as [(Hidx & Hno & _) | (n & Hidx & Hn & Hpre)].
      * left. split; [exact Hidx|]. split; [|reflexivity].
        intros H. apply occursIn_cases in H as [H | (c' & s' & H & Hocc)];
          [congruence | injection H as _ <-; contradiction].
      * right. exists (S n). split; [rewrite Hidx; lia|].
        split; [simpl; lia | exact Hpre].
Qed.






(* ------------------------------------------------------------------------- *)
(** ** Template round trip                                                   *)
(* ------------------------------------------------------------------------- *)

Lemma templateToTextAndMentionedUsers_empty m template users :
  mentionedUsers (templateToTextAndMentionedUsers m template users) = [] /\
  mentionedText (templateToTextAndMentionedUsers m template users) = EmptyString.
Proof. split; reflexivity. Qed.

(** C2. The round trip fails on the code: the text [Hi @Al] with the single
    mention of user [u1] at [[3,6)] is serialised to [Hi @{u1}], and parsing
    that template gives back no mention at all. *)
Theorem template_round_trip_loses_mentions :
  let m := mkManager (mkConfig "@" " ") true in
  let al := mkUser "u1" "Al" in
  let ms := [mkMention al (mkRange 3 6)] in
  let template := textToMentionedMessageTemplate m "Hi @Al" ms in
  nonOverlapping ms /\
  template = "Hi @{u1}"%string /\
  mentionedUsers (templateToTextAndMentionedUsers m template [al]) = [] /\
  ~ sameMentions (mentionedUsers (templateToTextAndMentionedUsers m template [al])) ms.
Proof.
  simpl. repeat split; try constructor.
  intros H. destruct (H (mkMention (mkUser "u1" "Al") (mkRange 3 6))) as [_ Hback].
  apply Hback. now left.
Qed.

(* ------------------------------------------------------------------------- *)
(** ** The hook: proofs                                                      *)
(* ------------------------------------------------------------------------- *)

Lemma disposeCurrent_run h :
  disposeCurrent h =
  (Returned tt,
   {| sortComparator := sortComparator h;
      collectionRef := option_map markDisposed (collectionRef h);
      store := store h; dispatched := dispatched h;
      sdkCalls := sdkCalls h ++ disposeCallsOf (collectionRef h) |}).
Proof.
  unfold disposeCurrent, bind, readRef, sdk, writeRef, ret.
  destruct h as [cmp [c|] st d calls]; simpl; [reflexivity|].
  now rewrite app_nil_r.
Qed.

(** C3 (amended). [init] disposes the existing collection, if there is one,
    before it looks at the viewer id, so in both branches.  When the viewer id
    is absent (or empty) nothing else happens: no collection is created, no
    action is dispatched, the message store (current and pendingNext) is
    unchanged, and the reference keeps the collection that was just
    disposed. *)
Theorem init_disposes_before_viewer_test
    (uid : option string) (created : MessageCollection) (h : Hook) :
  exists h' rest,
    init uid created h = (Returned tt, h') /\
    sdkCalls h' = sdkCalls h ++ disposeCallsOf (collectionRef h) ++ rest /\
    (truthy uid = false ->
       rest = [] /\
       store h' = store h /\
       dispatched h' = dispatched h /\
       collectionRef h' = option_map markDisposed (collectionRef h)) /\
    (truthy uid = true ->
       collectionRef h' = Some created /\
       In (callCreateMessageCollection (collectionId created)) rest).
Proof.
  unfold init, bind. rewrite disposeCurrent_run.
  destruct (truthy uid) eqn:E.
  - eexists. exists [callCreateMessageCollection (collectionId created);
                     callMarkAsDelivered; callMarkAsRead;
                     callInitialize (collectionId created);
                     callSetHandler (collectionId created)].
    unfold channelMarkAs, bind, sdk, writeRef, dispatch. simpl.
    split; [reflexivity|]. split.
    + rewrite <- !app_assoc. reflexivity.
    + split; [discriminate|]. intros _. split; [reflexivity | now left].
  - eexists. exists []. unfold ret. simpl.
    split; [reflexivity|]. split; [now rewrite app_nil_r|].
    split; [|discriminate]. intros _. repeat split.
Qed.

(** C3 as stated fails: with a live collection in place and no viewer id,
    [init] disposes that collection. *)
Lemma init_without_viewer_disposes_existing :
  let live := mkCollection 7 true true false [] [] in
  let fresh := mkCollection 8 true false false [] [] in
  let h := mkHook None (Some live) (mkState false false [] []) [] [] in
  let h' := snd (init None fresh h) in
  option_map disposed (collectionRef h) = Some false /\
  option_map disposed (collectionRef h') = Some true /\
  sdkCalls h' = [callDispose 7].
Proof. repeat split. Qed.

Lemma init_disposes_before_viewer_test_witness :
  let live := mkCollection 7 true true false [] [] in
  let fresh := mkCollection 8 true false false [] [] in
  let h := mkHook None (Some live) (mkState false false [] []) [] [] in
  exists h',
    init None fresh h = (Returned tt, h') /\
    sdkCalls h' = [callDispose 7] /\
    store h' = store h /\
    collectionRef h' = Some (markDisposed live).
Proof.
  intros live fresh h.
  destruct (init_disposes_before_viewer_test None fresh h)
    as (h' & rest & Hrun & Hcalls & Habsent & _).
  destruct (Habsent eq_refl) as (Hrest & Hstore & _ & Href).
  exists h'. rewrite Hcalls, Hrest. repeat split; assumption.
Defined.

(** C7. [prev] always returns: it never throws to its caller.  It changes
    nothing when there is no collection or the collection reports no earlier
    page, and when the page fetch fails the message store and the dispatched
    actions are those of the no-more-pages case, that is, unchanged. *)
Theorem prev_swallows_fetch_failure (page : Result (list SendbirdMessage)) (h : Hook) :
  exists h',
    prev page h = (Returned tt, h') /\
    (hasPage hasPrevious (collectionRef h) = false -> h' = h) /\
    (forall e, page = Thrown e ->
       store h' = store h /\ dispatched h' = dispatched h /\
       collectionRef h' = collectionRef h /\
       store h' = store (snd (prev page
                     {| sortComparator := sortComparator h; collectionRef := None;
                        store := store h; dispatched := dispatched h;
                        sdkCalls := sdkCalls h |}))) /\
    (forall l, page = Returned l ->
       hasPage hasPrevious (collectionRef h) = true ->
       store h' = reducer (sortComparator h) (store h) (updateMessages l false)).
Proof.
  unfold prev, bind, readRef, tryCatch, sdk, await, dispatch, ret.
  destruct (hasPage hasPrevious (collectionRef h)) eqn:E.
  - destruct page as [l | e]; simpl.
    + eexists. split; [reflexivity|]. split; [discriminate|]. split.
      * intros e H. discriminate.
      * intros l' Hl _. injection Hl as <-. reflexivity.
    + eexists. split; [reflexivity|]. split; [discriminate|]. split.
      * intros e' _. simpl. repeat split.
      * intros l' Hl. discriminate.
  - exists h. split; [reflexivity|]. split; [reflexivity|]. split.
    + intros e _. simpl. repeat split.
    + intros l _ Habs. discriminate.
Qed.

Lemma prev_swallows_fetch_failure_witness :
  let m1 := mkMessage (Some 1) None "u1" 10 "a" in
  let col := mkCollection 1 true false false [] [] in
  let h := mkHook None (Some col) (mkState false false [m1] []) [] [] in
  exists h',
    prev (Thrown "network") h = (Returned tt, h') /\
    store h' = store h /\ dispatched h' = [].
Proof.
  intros m1 col h.
  destruct (prev_swallows_fetch_failure (Thrown "network") h)
    as (h' & Hrun & _ & Hfail & _).
  destruct (Hfail "network"%string eq_refl) as (Hstore & Hd & _).
  exists h'. repeat split; assumption.
Defined.


(** What [next] has in [list] once both [if]s have run. *)
Lemma next_run nextMessages page h :
  next nextMessages page h =
  let h1 := if hasPage hasNext (collectionRef h)
            then snd (sdk (callLoadNext (collectionIdOf (collectionRef h))) h)
            else h in
  let list := fetchedPage h page ++ nextMessages in
  if 0 <? Z.of_nat (List.length list)
  then (dispatch (updateMessages list false) ;;; dispatch (updateNextMessages [] true)) h1
  else (Returned tt, h1).
Proof.
  unfold next, fetchedPage, bind at 1 2, readRef.
  destruct (hasPage hasNext (collectionRef h)) eqn:E.
  - unfold tryCatch, bind at 1 2, sdk, await, ret.
    destruct page as [l | e]; destruct nextMessages as [|x rest]; simpl;
      rewrite ?app_nil_r;
      match goal with
      | |- context [0 <? ?n] => destruct (0 <? n); reflexivity
      | _ => reflexivity
      end.
  - unfold ret at 1. destruct nextMessages as [|x rest]; reflexivity.
Qed.







(* ------------------------------------------------------------------------- *)
(** ** Slices of a string                                                    *)
(* ------------------------------------------------------------------------- *)

Lemma length_append (a b : string) :
  String.length (a ++ b) = (String.length a + String.length b)%nat.
Proof. induction a; simpl; congruence. Qed.

Lemma append_nil_r (a : string) : (a ++ EmptyString)%string = a.
Proof. induction a; simpl; congruence. Qed.

Lemma append_assoc (a b c : string) : ((a ++ b) ++ c = a ++ b ++ c)%string.
Proof. induction a; simpl; congruence. Qed.

Lemma substring_join (s : string) : forall n k,
  (substring 0 n s ++ substring n k s)%string = substring 0 (n + k) s.
Proof.
  induction s as [|c s IH]; intros n k.
  - destruct n, k; reflexivity.
  - destruct n as [|n]; simpl.
    + destruct k; reflexivity.
    + now rewrite IH.
Qed.

Lemma substring_whole (s : string) : forall k,
  (String.length s <= k)%nat -> substring 0 k s = s.
Proof.
  induction s as [|c s IH]; intros k Hk.
  - destruct k; reflexivity.
  - destruct k as [|k]; simpl in *; [lia|]. rewrite IH by lia. reflexivity.
Qed.

Lemma substring_head_app (a b : string) :
  substring 0 (String.length a) (a ++ b) = a.
Proof. induction a; simpl; [now destruct b | congruence]. Qed.

Lemma substring_skip_app (a b : string) : forall k,
  substring (String.length a) k (a ++ b) = substring 0 k b.
Proof. induction a; intros k; simpl; auto. Qed.

(** For [0 <= a <= b] the three slices at [a] and [b] make up the string. *)
Lemma slice_partition (t : string) (a b : Z) :
  0 <= a <= b ->
  (JS.slice t 0 (Some a) ++ JS.slice t a (Some b) ++ JS.slice t b None)%string = t.
Proof.
  intros H. unfold JS.slice, JS.clampIndex, JS.len.
  set (n := String.length t).
  destruct (Z.ltb_spec a 0); [lia|]. destruct (Z.ltb_spec b 0); [lia|].
  destruct (Z.ltb_spec 0 0); [lia|].
  replace (Z.to_nat (Z.min 0 (Z.of_nat n))) with O by lia.
  set (f := Z.to_nat (Z.min a (Z.of_nat n))).
  set (g := Z.to_nat (Z.min b (Z.of_nat n))).
  replace (Z.to_nat (Z.max (Z.min a (Z.of_nat n) - Z.min 0 (Z.of_nat n)) 0))
    with f by lia.
  replace (Z.to_nat (Z.max (Z.min b (Z.of_nat n) - Z.min a (Z.of_nat n)) 0))
    with (g - f)%nat by lia.
  replace (Z.to_nat (Z.max (Z.of_nat n - Z.min b (Z.of_nat n)) 0))
    with (n - g)%nat by lia.
  rewrite <- append_assoc, substring_join.
  replace (f + (g - f))%nat with g by lia.
  rewrite substring_join. apply substring_whole. unfold n. lia.
Qed.

Lemma slice_head_app (a b : string) :
  JS.slice (a ++ b) 0 (Some (JS.len a)) = a.
Proof.
  unfold JS.slice, JS.clampIndex, JS.len. rewrite length_append.
  destruct (Z.ltb_spec 0 0); [lia|].
  destruct (Z.ltb_spec (Z.of_nat (String.length a)) 0); [lia|].
  replace (Z.to_nat (Z.min 0 _)) with O by lia.
  match goal with |- substring 0 ?k _ = _ =>
    replace k with (String.length a) by lia end.
  apply substring_head_app.
Qed.

Lemma slice_tail_app (a b : string) :
  JS.slice (a ++ b) (JS.len a) None = b.
Proof.
  unfold JS.slice, JS.clampIndex, JS.len. rewrite length_append.
  destruct (Z.ltb_spec (Z.of_nat (String.length a)) 0); [lia|].
  match goal with |- substring ?f ?k _ = _ =>
    replace f with (String.length a) by lia;
    replace k with (String.length b) by lia end.
  rewrite substring_skip_app. apply substring_all.
Qed.

Lemma slice_middle_app (a b c : string) :
  JS.slice (a ++ b ++ c) (JS.len a) (Some (JS.len a + JS.len b)) = b.
Proof.
  unfold JS.slice, JS.clampIndex, JS.len. rewrite !length_append.
  destruct (Z.ltb_spec (Z.of_nat (String.length a)) 0); [lia|].
  destruct (Z.ltb_spec (Z.of_nat (String.length a) + Z.of_nat (String.length b)) 0); [lia|].
  match goal with |- substring ?f ?k _ = _ =>
    replace f with (String.length a) by lia;
    replace k with (String.length b) by lia end.
  rewrite substring_skip_app. apply substring_head_app.
Qed.

(* ------------------------------------------------------------------------- *)
(** ** The stable sort by descending start                                   *)
(* ------------------------------------------------------------------------- *)

Lemma insertBy_perm {A} (cmp : A -> A -> Z) (x : A) (l : list A) :
  Permutation (JS.insertBy cmp x l) (x :: l).
Proof.
  induction l as [|y l IH]; simpl; [reflexivity|].
  destruct (cmp x y <=? 0); [reflexivity|].
  rewrite IH. apply perm_swap.
Qed.

Lemma sort_perm {A} (cmp : A -> A -> Z) (l : list A) :
  Permutation (JS.sort cmp l) l.
Proof.
  induction l as [|x l IH]; simpl; [reflexivity|].
  unfold JS.sort in *. simpl. rewrite insertBy_perm. now constructor.
Qed.

Lemma sort_Forall {A} (cmp : A -> A -> Z) (P : A -> Prop) (l : list A) :
  Forall P l -> Forall P (JS.sort cmp l).
Proof. intros H. eapply Permutation_Forall; [symmetry; apply sort_perm | exact H]. Qed.

Lemma insertBy_descending x l :
  StronglySorted (fun a b => start (range b) <= start (range a)) l ->
  StronglySorted (fun a b => start (range b) <= start (range a))
                 (JS.insertBy byStartDescending x l).
Proof.
  induction l as [|y l IH]; intros Hs; simpl.
  - constructor; constructor.
  - unfold byStartDescending at 1.
    destruct (Z.leb_spec (start (range y) - start (range x)) 0) as [Hle | Hgt].
    + constructor; [exact Hs|]. constructor; [lia|].
      inversion Hs as [|? ? _ Hall]; subst.
      eapply Forall_impl; [|exact Hall]. simpl. intros; lia.
    + inversion Hs as [|? ? Hl Hall]; subst.
      constructor; [now apply IH|].
      eapply Permutation_Forall; [symmetry; apply insertBy_perm|].
      constructor; [lia | exact Hall].
Qed.

Lemma sort_descending l :
  StronglySorted (fun a b => start (range b) <= start (range a))
                 (JS.sort byStartDescending l).
Proof.
  induction l as [|x l IH]; [constructor|].
  unfold JS.sort in *. simpl. now apply insertBy_descending.
Qed.

(** Two descending arrangements of the same mentions coincide when no two
    mentions start at the same offset. *)
Lemma descending_unique : forall l1 l2 : list MentionedUser,
  StronglySorted (fun a b => start (range b) <= start (range a)) l1 ->
  StronglySorted (fun a b => start (range b) <= start (range a)) l2 ->
  Permutation l1 l2 ->
  NoDup (map (fun it => start (range it)) l2) ->
  l1 = l2.
Proof.
  induction l1 as [|a l1 IH]; intros l2 H1 H2 Hp Hnd.
  - apply Permutation_nil in Hp. now subst.
  - destruct l2 as [|b l2]; [symmetry in Hp; now apply Permutation_nil in Hp|].
    inversion H1 as [|? ? H1' Ha]; subst. inversion H2 as [|? ? H2' Hb]; subst.
    inversion Hnd as [|? ? Hnotin Hnd']; subst.
    assert (Hab : a = b).
    { assert (Hina : In a (b :: l2)) by (eapply Permutation_in; [exact Hp | now left]).
      assert (Hinb : In b (a :: l1))
        by (eapply Permutation_in; [symmetry; exact Hp | now left]).
      destruct Hina as [-> | Hina]; [reflexivity|].
      destruct Hinb as [-> | Hinb]; [reflexivity|].
      rewrite Forall_forall in Ha, Hb.
      specialize (Ha b Hinb). specialize (Hb a Hina). simpl in *.
      exfalso. apply Hnotin. apply in_map_iff. exists a. split; [lia | exact Hina]. }
    subst b. f_equal. apply IH; try assumption.
    eapply Permutation_cons_inv. exact Hp.
Qed.

Lemma layoutMentions_starts offset segs :
  Forall (fun it => offset <= start (range it)) (layoutMentions offset segs).
Proof.
  revert offset. induction segs as [|s segs IH]; intros offset; simpl; constructor.
  - simpl. lia.
  - eapply Forall_impl; [|apply IH]. simpl. intros it H.
    unfold JS.len in *. lia.
Qed.

Lemma layoutMentions_starts_strict offset s segs :
  segSpan s <> EmptyString ->
  Forall (fun it => offset < start (range it))
         (layoutMentions (offset + JS.len (segSpan s) + JS.len (segAfter s)) segs).
Proof.
  intros Hne. eapply Forall_impl; [|apply layoutMentions_starts].
  simpl. intros it H. unfold JS.len in *.
  destruct (segSpan s); [congruence|]. simpl in *. lia.
Qed.

Lemma sorted_snoc {A} (R : A -> A -> Prop) (l : list A) (x : A) :
  StronglySorted R l -> Forall (fun y => R y x) l -> StronglySorted R (l ++ [x]).
Proof.
  induction l as [|y l IH]; intros Hs Hall; simpl.
  - constructor; constructor.
  - inversion Hs; subst. inversion Hall; subst.
    constructor; [now apply IH|].
    apply Forall_app. split; [assumption | now constructor].
Qed.

Lemma layoutMentions_rev_descending segs : forall offset,
  Forall (fun s => segSpan s <> EmptyString) segs ->
  StronglySorted (fun a b => start (range b) <= start (range a))
                 (rev (layoutMentions offset segs)) /\
  NoDup (map (fun it => start (range it)) (rev (layoutMentions offset segs))).
Proof.
  induction segs as [|s segs IH]; intros offset Hne; simpl.
  - split; constructor.
  - inversion Hne as [|? ? Hs Hrest]; subst.
    destruct (IH (offset + JS.len (segSpan s) + JS.len (segAfter s)) Hrest) as (Hsorted & Hnd).
    pose proof (layoutMentions_starts_strict offset s segs Hs) as Hgt.
    split.
    + apply sorted_snoc; [exact Hsorted|].
      apply Forall_rev. eapply Forall_impl; [|exact Hgt]. simpl. intros; lia.
    + rewrite map_app. simpl.
      apply Permutation_NoDup with
        (l := offset :: map (fun it => start (range it))
                (rev (layoutMentions (offset + JS.len (segSpan s) + JS.len (segAfter s)) segs))).
      * apply Permutation_cons_append.
      * constructor; [|exact Hnd].
        rewrite in_map_iff. intros (it & Hit & Hin).
        apply in_rev in Hin. rewrite Forall_forall in Hgt.
        specialize (Hgt it Hin). simpl in Hgt. lia.
Qed.

(** The order in which both [reduce]s visit the mentions of a layout. *)
Lemma sort_layout ms offset segs :
  Forall (fun s => segSpan s <> EmptyString) segs ->
  Permutation ms (layoutMentions offset segs) ->
  JS.sort byStartDescending ms = rev (layoutMentions offset segs).
Proof.
  intros Hne Hp.
  destruct (layoutMentions_rev_descending segs offset Hne) as (Hsorted & Hnd).
  apply descending_unique; try assumption.
  - apply sort_descending.
  - rewrite sort_perm, Hp. apply Permutation_rev.
Qed.

(* ------------------------------------------------------------------------- *)
(** ** Template and components of a laid-out text                            *)
(* ------------------------------------------------------------------------- *)

Lemma len_append (a b : string) : JS.len (a ++ b) = JS.len a + JS.len b.
Proof. unfold JS.len. rewrite length_append. lia. Qed.

Lemma join_appendAll (l : list string) : JS.join l = appendAll l.
Proof.
  unfold JS.join. induction l as [|x l IH]; [reflexivity|].
  destruct l as [|y l]; simpl in *.
  - now rewrite append_nil_r.
  - now rewrite IH.
Qed.

Lemma fold_left_rev {A B} (f : A -> B -> A) (l : list B) (a : A) :
  fold_left f (rev l) a = fold_right (fun x acc => f acc x) a l.
Proof.
  induction l as [|x l IH]; simpl; [reflexivity|].
  rewrite fold_left_app. simpl. now rewrite IH.
Qed.

(** The pieces that the template [reduce] leaves for a layout. *)
Lemma templateStep_layout m segs : forall pre,
  exists strings,
    fold_right (fun curr acc => templateStep m acc curr)
               ((pre ++ layoutText segs)%string, [])
               (layoutMentions (JS.len pre) segs) = (pre, strings) /\
    appendAll strings = layoutTemplate m segs.
Proof.
  induction segs as [|s segs IH]; intros pre; simpl.
  - exists []. rewrite append_nil_r. split; reflexivity.
  - destruct (IH (pre ++ segSpan s ++ segAfter s)%string) as (strings & Hfold & Hjoin).
    rewrite !len_append, Z.add_assoc, !append_assoc in Hfold.
    rewrite Hfold. unfold templateStep.
    eexists. split; [f_equal|].
    + apply slice_head_app.
    + simpl. rewrite Hjoin. f_equal. f_equal.
      rewrite <- len_append, <- (append_assoc pre). apply slice_tail_app.
Qed.

(** X1. With mentions enabled, a text made of plain pieces and non-empty
    mention spans, and the mentions of those spans given in any order, the
    template is the text with every span replaced by the template of its user
    and every plain piece kept. *)
Theorem template_substitutes_every_span
    (m : MentionManager) (p0 : string) (segs : list Segment) (ms : list MentionedUser) :
  mentionEnabled m = true ->
  Forall (fun s => segSpan s <> EmptyString) segs ->
  Permutation ms (layoutMentions (JS.len p0) segs) ->
  textToMentionedMessageTemplate m (p0 ++ layoutText segs) ms =
  (p0 ++ layoutTemplate m segs)%string.
Proof.
  intros Hen Hne Hp. unfold textToMentionedMessageTemplate. rewrite Hen. simpl negb. cbv iota.
  rewrite (sort_layout ms (JS.len p0) segs Hne Hp).
  rewrite fold_left_rev.
  destruct (templateStep_layout m segs p0) as (strings & Hfold & Hjoin).
  rewrite Hfold, join_appendAll. simpl. now rewrite Hjoin.
Qed.

Lemma template_substitutes_every_span_witness :
  let m := mkManager (mkConfig "@" " ") true in
  let al := mkUser "u1" "Al" in
  let bo := mkUser "u2" "Bo" in
  textToMentionedMessageTemplate m "Hi @Al and @Bo!"
    [mkMention bo (mkRange 11 14); mkMention al (mkRange 3 6)]
  = "Hi @{u1} and @{u2}!"%string.
Proof.
  intros m al bo.
  apply (template_substitutes_every_span m "Hi "
           [mkSegment al "@Al" " and "; mkSegment bo "@Bo" "!"]).
  - reflexivity.
  - repeat constructor; discriminate.
  - apply perm_swap.
Defined.

Lemma componentsStep_layout segs : forall pre,
  exists components index,
    fold_right (fun curr acc => componentsStep acc curr)
               ((pre ++ layoutText segs)%string, [], O)
               (layoutMentions (JS.len pre) segs) = (pre, components, index) /\
    map (fun c => (isBold c, shownText c)) components = layoutShown segs.
Proof.
  induction segs as [|s segs IH]; intros pre; simpl.
  - exists [], O. rewrite append_nil_r. split; reflexivity.
  - destruct (IH (pre ++ segSpan s ++ segAfter s)%string)
      as (components & index & Hfold & Hview).
    rewrite !len_append, Z.add_assoc, !append_assoc in Hfold.
    rewrite Hfold. unfold componentsStep.
    eexists. eexists. split; [f_equal; f_equal|].
    + apply slice_head_app.
    + simpl. rewrite Hview. f_equal; [f_equal; apply slice_middle_app|].
      f_equal. f_equal.
      rewrite <- len_append, <- (append_assoc pre). apply slice_tail_app.
Qed.

(** X2. With mentions enabled, a text made of plain pieces and non-empty
    mention spans, and the mentions of those spans given in any order, the
    components are the leading plain piece followed, for every span in text
    order, by the span in bold and the plain piece after it. *)
Theorem components_follow_the_layout
    (m : MentionManager) (p0 : string) (segs : list Segment) (ms : list MentionedUser) :
  mentionEnabled m = true ->
  Forall (fun s => segSpan s <> EmptyString) segs ->
  Permutation ms (layoutMentions (JS.len p0) segs) ->
  exists components,
    textToMentionedComponents m (p0 ++ layoutText segs) ms = renderedComponents components /\
    map (fun c => (isBold c, shownText c)) components = (false, p0) :: layoutShown segs.
Proof.
  intros Hen Hne Hp. unfold textToMentionedComponents. rewrite Hen. simpl negb. cbv iota.
  rewrite (sort_layout ms (JS.len p0) segs Hne Hp).
  rewrite fold_left_rev.
  destruct (componentsStep_layout segs p0) as (components & index & Hfold & Hview).
  rewrite Hfold. eexists. split; [reflexivity|]. simpl. now rewrite Hview.
Qed.

Lemma components_follow_the_layout_witness :
  let m := mkManager (mkConfig "@" " ") true in
  let al := mkUser "u1" "Al" in
  let bo := mkUser "u2" "Bo" in
  exists components,
    textToMentionedComponents m "Hi @Al and @Bo!"
      [mkMention bo (mkRange 11 14); mkMention al (mkRange 3 6)]
    = renderedComponents components /\
    map (fun c => (isBold c, shownText c)) components =
    [(false, "Hi "); (true, "@Al"); (false, " and "); (true, "@Bo"); (false, "!")]%string.
Proof.
  intros m al bo.
  apply (components_follow_the_layout m "Hi "
           [mkSegment al "@Al" " and "; mkSegment bo "@Bo" "!"]).
  - reflexivity.
  - repeat constructor; discriminate.
  - apply perm_swap.
Defined.

Lemma componentsStep_keeps_text l : forall acc,
  Forall wellFormed l ->
  let r := fold_left componentsStep l acc in
  (fst (fst r) ++ appendAll (map shownText (snd (fst r))))%string =
  (fst (fst acc) ++ appendAll (map shownText (snd (fst acc))))%string /\
  List.length (snd (fst r)) = (List.length (snd (fst acc)) + 2 * List.length l)%nat.
Proof.
  induction l as [|it l IH]; intros acc Hall.
  - simpl. split; [reflexivity | lia].
  - inversion Hall as [|? ? Hit Hrest]; subst.
    destruct (IH (componentsStep acc it) Hrest) as (Htext & Hlen).
    simpl fold_left. cbv zeta. rewrite Htext, Hlen.
    destruct acc as [[leftText components] index]. simpl. split; [|lia].
    rewrite <- (slice_partition leftText _ _ Hit) at 4.
    now rewrite !append_assoc.
Qed.

(** X3. Whatever the mentions are, as long as every range has
    [0 <= start <= end], rendering neither loses nor repeats a character: the
    strings shown by the result, in order, make up the text.  With mentions
    enabled there are two components per mention and one more. *)
Theorem components_show_the_whole_text
    (m : MentionManager) (text : string) (ms : list MentionedUser) :
  Forall wellFormed ms ->
  renderedString (textToMentionedComponents m text ms) = text /\
  (mentionEnabled m = true ->
   exists components,
     textToMentionedComponents m text ms = renderedComponents components /\
     List.length components = (2 * List.length ms + 1)%nat).
Proof.
  intros Hall. unfold textToMentionedComponents.
  destruct (mentionEnabled m); simpl negb; cbv iota.
  - pose proof (componentsStep_keeps_text (JS.sort byStartDescending ms) (text, [], O)
                  (sort_Forall _ _ _ Hall)) as H.
    cbv zeta in H.
    destruct (fold_left componentsStep _ _) as [[leftText components] index].
    simpl in H. destruct H as (H & Hlen). split.
    + simpl. rewrite H. apply append_nil_r.
    + intros _. eexists. split; [reflexivity|]. simpl. rewrite Hlen.
      rewrite (Permutation_length (sort_perm byStartDescending ms)). lia.
  - split; [reflexivity | discriminate].
Qed.

Lemma components_show_the_whole_text_witness :
  let m := mkManager (mkConfig "@" " ") true in
  renderedString
    (textToMentionedComponents m "Hi @Al and @Bo!"
       [mkMention (mkUser "u1" "Al") (mkRange 3 6);
        mkMention (mkUser "u2" "Bo") (mkRange 5 40)])
  = "Hi @Al and @Bo!"%string.
Proof.
  intros m.
  apply (components_show_the_whole_text m "Hi @Al and @Bo!"
           [mkMention (mkUser "u1" "Al") (mkRange 3 6);
            mkMention (mkUser "u2" "Bo") (mkRange 5 40)]).
  repeat constructor; simpl; lia.
Defined.

(* ------------------------------------------------------------------------- *)
(** ** The last span and the search string                                   *)
(* ------------------------------------------------------------------------- *)

Lemma pop_last {A} (l : list A) (d : A) : JS.nullish (JS.pop l) d = last l d.
Proof.
  destruct l as [|y l]; [reflexivity|].
  destruct (@exists_last _ (y :: l)) as (l' & x & Heq); [discriminate|].
  rewrite Heq. unfold JS.pop. rewrite rev_app_distr. simpl.
  now rewrite last_last.
Qed.

Lemma last_cons_nonempty {A} (x : A) (l : list A) (d : A) :
  l <> [] -> last (x :: l) d = last l d.
Proof. destruct l; [congruence | reflexivity]. Qed.

Lemma splitFrom_nonempty sep : forall s cur skip, JS.splitFrom sep s cur skip <> [].
Proof.
  induction s as [|c s IH]; intros cur skip; cbn [JS.splitFrom]; [discriminate|].
  destruct skip; [|apply IH].
  destruct (prefix sep (String c s)); [discriminate | apply IH].
Qed.

(** The last piece of a split is an end of the string that was split. *)
Lemma splitFrom_last_suffix sep : forall s cur skip,
  skip = O \/ cur = EmptyString ->
  exists pre, (cur ++ s)%string = (pre ++ last (JS.splitFrom sep s cur skip) EmptyString)%string.
Proof.
  induction s as [|c s IH]; intros cur skip Hinv.
  - exists EmptyString. simpl. apply append_nil_r.
  - cbn [JS.splitFrom]. destruct skip as [|k].
    + destruct (prefix sep (String c s)).
      * rewrite last_cons_nonempty by apply splitFrom_nonempty.
        destruct (IH EmptyString (Nat.pred (String.length sep)) (or_intror eq_refl))
          as (pre & Hpre).
        simpl in Hpre. exists (cur ++ String c pre)%string.
        rewrite append_assoc. simpl. now rewrite <- Hpre.
      * destruct (IH (cur ++ String c EmptyString)%string O (or_introl eq_refl))
          as (pre & Hpre).
        exists pre. rewrite <- Hpre, append_assoc. reflexivity.
    + destruct Hinv as [Hk | ->]; [discriminate|].
      destruct (IH EmptyString k (or_intror eq_refl)) as (pre & Hpre).
      simpl in Hpre. exists (String c pre). simpl. now rewrite <- Hpre.
Qed.

Lemma chars_last_suffix : forall s,
  exists pre, s = (pre ++ last (JS.chars s) EmptyString)%string.
Proof.
  induction s as [|c s (pre & IH)]; [now exists EmptyString|].
  destruct s as [|c' s'].
  - exists EmptyString. reflexivity.
  - exists (String c pre). simpl in *. now rewrite <- IH.
Qed.

Lemma lastSpan_suffix m text selectionIndex :
  exists pre,
    JS.slice text 0 (Some selectionIndex) = (pre ++ lastSpanOf m text selectionIndex)%string.
Proof.
  unfold lastSpanOf. rewrite pop_last. unfold JS.split.
  destruct (delimiter (config m)) as [|c sep].
  - apply chars_last_suffix.
  - destruct (splitFrom_last_suffix (String c sep) (JS.slice text 0 (Some selectionIndex))
                EmptyString O (or_introl eq_refl)) as (pre & H).
    exists pre. exact H.
Qed.

Lemma suffixFrom_suffix n s :
  (n <= String.length s)%nat -> s = (substring 0 n s ++ suffixFrom n s)%string.
Proof.
  intros H. unfold suffixFrom. rewrite substring_join.
  symmetry. apply substring_whole. lia.
Qed.

Lemma slice_from_suffix s k :
  0 <= k -> exists pre, s = (pre ++ JS.slice s k None)%string.
Proof.
  intros Hk. unfold JS.slice, JS.clampIndex, JS.len.
  destruct (Z.ltb_spec k 0); [lia|].
  set (f := Z.to_nat (Z.min k (Z.of_nat (String.length s)))).
  replace (Z.to_nat (Z.max (Z.of_nat (String.length s) - Z.min k (Z.of_nat (String.length s))) 0))
    with (String.length s - f)%nat by lia.
  exists (substring 0 f s). apply suffixFrom_suffix. lia.
Qed.

Lemma substring_head_length : forall (s : string) (k : nat),
  (k <= String.length s)%nat -> String.length (substring 0 k s) = k.
Proof.
  induction s as [|c s IH]; intros [|k] Hk; simpl in *; try lia.
  rewrite IH by lia. reflexivity.
Qed.

(** The text before a cursor that lies inside the text. *)
Lemma slice_head_cut text k :
  0 <= k <= JS.len text ->
  JS.len (JS.slice text 0 (Some k)) = k /\
  exists rest, text = (JS.slice text 0 (Some k) ++ rest)%string.
Proof.
  intros Hk. unfold JS.slice, JS.clampIndex, JS.len in *.
  destruct (Z.ltb_spec 0 0); [lia|]. destruct (Z.ltb_spec k 0); [lia|].
  replace (Z.to_nat (Z.min 0 _)) with O by lia.
  replace (Z.to_nat (Z.max (Z.min k (Z.of_nat (String.length text))
                            - Z.min 0 (Z.of_nat (String.length text))) 0))
    with (Z.to_nat k) by lia.
  split.
  - rewrite substring_head_length by lia. lia.
  - exists (suffixFrom (Z.to_nat k) text). apply suffixFrom_suffix. lia.
Qed.

Lemma mentionSpan_suffix m lastSpan :
  exists pre, lastSpan = (pre ++ mentionSpanOf m lastSpan)%string.
Proof.
  unfold mentionSpanOf, JS.indexOf.
  destruct (indexOfFrom_spec (trigger (config m)) lastSpan 0)
    as [(Hidx & _) | (n & Hidx & Hn & _)]; rewrite Hidx.
  - exists EmptyString. reflexivity.
  - destruct (Z.eqb_spec (0 + Z.of_nat n) (-1)); [lia|].
    apply slice_from_suffix. lia.
Qed.

(** X4. For a cursor inside the text, when the search is triggered the range
    located for it ends at the cursor and holds exactly the trigger followed
    by the search string. *)
Theorem search_range_holds_trigger_and_search
    (m : MentionManager) (text : string) (selectionIndex : Z) :
  0 <= selectionIndex <= JS.len text ->
  isTriggered (getSearchString m text selectionIndex) = true ->
  let found := searchString (getSearchString m text selectionIndex) in
  let located := getSearchStringRangeInText m selectionIndex found in
  JS.slice text (start located) (Some (end_ located)) = (trigger (config m) ++ found)%string /\
  0 <= start located /\ end_ located = selectionIndex.
Proof.
  intros Hidx Htrig. simpl in *.
  destruct (lastSpan_suffix m text selectionIndex) as (pre1 & Hlast).
  destruct (mentionSpan_suffix m (lastSpanOf m text selectionIndex)) as (pre2 & Hspan).
  set (span := mentionSpanOf m (lastSpanOf m text selectionIndex)) in *.
  unfold JS.startsWith in Htrig. apply prefix_iff in Htrig as (post & Hpost).
  assert (Hfound : JS.slice span (JS.len (trigger (config m))) None = post)
    by (rewrite Hpost; apply slice_tail_app).
  rewrite Hfound.
  destruct (slice_head_cut text selectionIndex Hidx) as (Hlen & rest & Htext).
  assert (Hhead : JS.slice text 0 (Some selectionIndex)
                  = ((pre1 ++ pre2) ++ trigger (config m) ++ post)%string)
    by (rewrite Hlast, Hspan, Hpost, append_assoc; reflexivity).
  rewrite Hhead in Hlen, Htext. rewrite !len_append in Hlen.
  assert (0 <= JS.len (pre1 ++ pre2)) by (unfold JS.len; lia).
  pose proof (len_append pre1 pre2) as Hpre.
  split; [|split; [lia | reflexivity]].
  rewrite Htext at 1.
  replace (selectionIndex - JS.len post - JS.len (trigger (config m)))
    with (JS.len (pre1 ++ pre2)) by lia.
  replace selectionIndex
    with (JS.len (pre1 ++ pre2) + JS.len (trigger (config m) ++ post))
    by (rewrite !len_append; lia).
  rewrite append_assoc. apply slice_middle_app.
Qed.

Lemma search_range_holds_trigger_and_search_witness :
  let m := mkManager (mkConfig "@" " ") true in
  JS.slice "hi ab@cd ef" 5 (Some 8) = "@cd"%string.
Proof.
  intros m.
  apply (search_range_holds_trigger_and_search m "hi ab@cd ef" 8).
  - unfold JS.len. simpl. lia.
  - reflexivity.
Defined.

Lemma occursIn_append_left p pre x : occursIn p x -> occursIn p (pre ++ x).
Proof.
  intros (a & b & ->). exists (pre ++ a)%string, b. now rewrite append_assoc.
Qed.

Lemma append_snoc_split : forall (a b cur : string) (c : ascii),
  (a ++ b)%string = (cur ++ String c EmptyString)%string ->
  b <> EmptyString ->
  exists b', b = (b' ++ String c EmptyString)%string /\ (a ++ b')%string = cur.
Proof.
  induction a as [|x a IH]; intros b cur c Heq Hb; simpl in *.
  - exists cur. split; [exact Heq | reflexivity].
  - destruct cur as [|y cur]; simpl in *.
    + injection Heq as _ Heq. destruct a; destruct b; simpl in *; congruence.
    + injection Heq as -> Heq.
      destruct (IH b cur c Heq Hb) as (b' & Hb' & Hcur).
      exists b'. split; [exact Hb' | now rewrite Hcur].
Qed.

(** No occurrence of the separator starts inside the piece being collected,
    so the piece that ends the split has none. *)
Lemma splitFrom_last_clean sep :
  sep <> EmptyString ->
  forall s cur skip,
    (forall a b, cur = (a ++ b)%string -> b <> EmptyString ->
                 prefix sep (b ++ s) = false) ->
    skip = O \/ cur = EmptyString ->
    ~ occursIn sep (last (JS.splitFrom sep s cur skip) EmptyString).
Proof.
  intros Hsep. induction s as [|c s IH]; intros cur skip Hinv Hskip.
  - simpl. intros (pre & post & Hcur).
    assert (Hfalse : prefix sep ((sep ++ post) ++ EmptyString) = false).
    { apply (Hinv pre); [exact Hcur|]. destruct sep; [congruence | discriminate]. }
    assert (Htrue : prefix sep ((sep ++ post) ++ EmptyString) = true).
    { apply prefix_iff. exists (post ++ EmptyString)%string. apply append_assoc. }
    congruence.
  - cbn [JS.splitFrom]. destruct skip as [|k].
    + destruct (prefix sep (String c s)) eqn:E.
      * rewrite last_cons_nonempty by apply splitFrom_nonempty.
        apply IH; [|now right].
        intros a b Hab Hb. destruct a; destruct b; simpl in *; congruence.
      * apply IH; [|now left].
        intros a b Hab Hb. symmetry in Hab.
        destruct (append_snoc_split a b cur c Hab Hb) as (b' & -> & Hcur).
        rewrite append_assoc. simpl.
        destruct b' as [|x b']; [exact E|].
        apply (Hinv a); [now symmetry | discriminate].
    + destruct Hskip as [Hk | ->]; [discriminate|].
      apply IH; [|now right].
      intros a b Hab Hb. destruct a; destruct b; simpl in *; congruence.
Qed.

Lemma lastSpan_clean m text selectionIndex :
  delimiter (config m) <> EmptyString ->
  ~ occursIn (delimiter (config m)) (lastSpanOf m text selectionIndex).
Proof.
  intros Hne. unfold lastSpanOf. rewrite pop_last. unfold JS.split.
  destruct (delimiter (config m)) as [|c sep] eqn:E; [congruence|].
  apply splitFrom_last_clean; [discriminate | | now left].
  intros a b Hab Hb. destruct a; destruct b; simpl in *; congruence.
Qed.

(** X5. With a non-empty delimiter, the search string never contains the
    delimiter; so it never begins with it, and [isValidSearchString] is false
    exactly when the search string begins with the trigger. *)
Theorem search_string_has_no_delimiter
    (m : MentionManager) (text : string) (selectionIndex : Z) :
  delimiter (config m) <> EmptyString ->
  let r := getSearchString m text selectionIndex in
  ~ occursIn (delimiter (config m)) (searchString r) /\
  JS.startsWith (searchString r) (delimiter (config m)) = false /\
  isValidSearchString r = negb (JS.startsWith (searchString r) (trigger (config m))).
Proof.
  intros Hne. simpl.
  set (span := mentionSpanOf m (lastSpanOf m text selectionIndex)).
  set (found := JS.slice span (JS.len (trigger (config m))) None).
  assert (Hclean : ~ occursIn (delimiter (config m)) found).
  { intros Hocc.
    destruct (mentionSpan_suffix m (lastSpanOf m text selectionIndex)) as (pre2 & Hspan).
    destruct (slice_from_suffix span (JS.len (trigger (config m)))) as (pre3 & Hfound);
      [unfold JS.len; lia|].
    apply (lastSpan_clean m text selectionIndex Hne).
    rewrite Hspan. apply occursIn_append_left.
    fold span. rewrite Hfound. now apply occursIn_append_left. }
  assert (Hstart : JS.startsWith found (delimiter (config m)) = false).
  { destruct (JS.startsWith found (delimiter (config m))) eqn:E; [|reflexivity].
    exfalso. apply Hclean. now apply occursIn_prefix. }
  split; [exact Hclean|]. split; [exact Hstart|].
  rewrite Hstart. simpl. now rewrite andb_true_r.
Qed.

Lemma search_string_has_no_delimiter_witness :
  let m := mkManager (mkConfig "@" " ") true in
  isValidSearchString (getSearchString m "hi ab@cd ef" 8) =
  negb (JS.startsWith (searchString (getSearchString m "hi ab@cd ef" 8)) "@").
Proof.
  intros m.
  apply (search_string_has_no_delimiter m "hi ab@cd ef" 8). discriminate.
Defined.

(** X6. An empty trigger or an empty delimiter makes every search string
    invalid, and with an empty trigger every cursor position is triggered. *)
Theorem empty_keyword_invalidates_search
    (m : MentionManager) (text : string) (selectionIndex : Z) :
  let r := getSearchString m text selectionIndex in
  (trigger (config m) = EmptyString \/ delimiter (config m) = EmptyString ->
   isValidSearchString r = false) /\
  (trigger (config m) = EmptyString -> isTriggered r = true).
Proof.
  assert (Hempty : forall s, JS.startsWith s EmptyString = true)
    by (intros s; unfold JS.startsWith; now destruct s).
  simpl. split.
  - intros [-> | ->]; rewrite Hempty; simpl; [reflexivity | apply andb_false_r].
  - intros ->. apply Hempty.
Qed.

Lemma empty_keyword_invalidates_search_witness :
  isValidSearchString (getSearchString (mkManager (mkConfig "@" "") true) "hi @al" 6) = false.
Proof.
  apply (empty_keyword_invalidates_search (mkManager (mkConfig "@" "") true) "hi @al" 6).
  right. reflexivity.
Defined.

(* ------------------------------------------------------------------------- *)
(** ** Range helpers, reconciliation and removal: further properties         *)
(* ------------------------------------------------------------------------- *)

(** X7. The four modes are ordered: a hit under [underOver] is a hit under
    every mode, and a hit under any mode is a hit under [lessMore].  A range
    [a] with [end <= start] is hit by nothing under [underOver], [underMore]
    and [lessOver]. *)
Theorem intersection_modes_are_ordered (a b : Range) (compare : Compare) :
  (rangeHelpers.intersection a b underOver = true ->
   rangeHelpers.intersection a b compare = true) /\
  (rangeHelpers.intersection a b compare = true ->
   rangeHelpers.intersection a b lessMore = true) /\
  (end_ a <= start a -> compare <> lessMore ->
   rangeHelpers.intersection a b compare = false).
Proof.
  unfold rangeHelpers.intersection.
  repeat split.
  - rewrite !orb_true_iff, !select_spec. destruct compare; simpl; lia.
  - rewrite !orb_true_iff, !select_spec. destruct compare; simpl; lia.
  - intros Hempty Hmode. apply not_true_is_false.
    rewrite !orb_true_iff, !select_spec.
    destruct compare; simpl; try congruence; lia.
Qed.

Lemma intersection_modes_are_ordered_witness :
  rangeHelpers.intersection (mkRange 2 9) (mkRange 4 20) lessOver = true /\
  rangeHelpers.intersection (mkRange 5 5) (mkRange 5 5) lessOver = false.
Proof.
  split.
  - apply (intersection_modes_are_ordered (mkRange 2 9) (mkRange 4 20) lessOver).
    reflexivity.
  - apply (intersection_modes_are_ordered (mkRange 5 5) (mkRange 5 5) lessOver).
    + simpl. lia.
    + discriminate.
Defined.

(** X8. Under no mode does [intersection a b] report a range [b] that
    strictly contains [a]: both end points of [b] lie outside [a]. *)
Theorem intersection_misses_enclosing_range (a b : Range) (compare : Compare) :
  start a <= end_ a ->
  start b < start a -> end_ a < end_ b ->
  rangeHelpers.intersection a b compare = false.
Proof.
  intros Ha Hs He. apply not_true_is_false.
  unfold rangeHelpers.intersection. rewrite !orb_true_iff, !select_spec.
  destruct compare; simpl; lia.
Qed.

Lemma intersection_misses_enclosing_range_witness :
  rangeHelpers.intersection (mkRange 3 4) (mkRange 1 10) lessMore = false.
Proof.
  apply (intersection_misses_enclosing_range (mkRange 3 4) (mkRange 1 10) lessMore);
    simpl; lia.
Defined.

Lemma reconcileOne_zero p it : reconcileOne 0 p it = it.
Proof.
  unfold reconcileOne. destruct (p <=? start (range it)); [|reflexivity].
  destruct it as [u [s e]]. simpl. now rewrite !Z.add_0_r.
Qed.

Lemma reconcileOne_twice k1 k2 p it :
  0 <= k2 ->
  reconcileOne k1 p (reconcileOne k2 p it) = reconcileOne (k1 + k2) p it.
Proof.
  intros Hk. unfold reconcileOne at 2 3.
  destruct (Z.leb_spec p (start (range it))) as [Hle | Hlt].
  - rewrite reconcileOne_right by (simpl; lia). simpl.
    f_equal. f_equal; lia.
  - now apply reconcileOne_left.
Qed.

(** X9. Two reconciliations at the same position add up when the first one is
    an insertion: shifting by [k2 >= 0] and then by [k1] is shifting by
    [k1 + k2].  In particular an insertion of [k] characters followed by the
    deletion of [k] characters at the same position gives the mentions back. *)
Theorem reconcile_composes_after_insertion
    (k1 k2 p : Z) (ms : list MentionedUser) :
  0 <= k2 ->
  reconcileRangeInMentionedUsers k1 p (reconcileRangeInMentionedUsers k2 p ms) =
  reconcileRangeInMentionedUsers (k1 + k2) p ms /\
  reconcileRangeInMentionedUsers (- k2) p (reconcileRangeInMentionedUsers k2 p ms) = ms.
Proof.
  intros Hk. unfold reconcileRangeInMentionedUsers. rewrite !map_map. split.
  - apply map_ext. intros it. now apply reconcileOne_twice.
  - rewrite <- (map_id ms) at 2. apply map_ext. intros it.
    rewrite reconcileOne_twice by exact Hk.
    replace (- k2 + k2) with 0 by lia. apply reconcileOne_zero.
Qed.

Lemma reconcile_composes_after_insertion_witness :
  let ms := [mkMention (mkUser "u1" "Al") (mkRange 0 3);
             mkMention (mkUser "u2" "Bo") (mkRange 8 11)] in
  reconcileRangeInMentionedUsers (-4) 5 (reconcileRangeInMentionedUsers 4 5 ms) = ms.
Proof.
  intros ms. apply (reconcile_composes_after_insertion 0 4 5 ms). lia.
Defined.

(** X10. An insertion keeps the mentions disjoint: when every range has
    [start <= end] and the ranges are pairwise non-overlapping, they still are
    after a reconciliation by an offset [k >= 0]. *)
Theorem reconcile_insertion_keeps_ranges_disjoint
    (k p : Z) (ms : list MentionedUser) :
  0 <= k ->
  Forall (fun it => start (range it) <= end_ (range it)) ms ->
  nonOverlapping ms ->
  nonOverlapping (reconcileRangeInMentionedUsers k p ms).
Proof.
  intros Hk. unfold reconcileRangeInMentionedUsers.
  induction ms as [|x ms IH]; intros Hwf Hno; simpl; [exact I|].
  inversion Hwf as [|? ? Hx Hrest]; subst. destruct Hno as (Hdis & Hno).
  split; [|now apply IH].
  rewrite Forall_map. rewrite Forall_forall in *. intros y Hy.
  specialize (Hdis y Hy). specialize (Hrest y Hy). simpl in Hrest.
  unfold reconcileOne.
  destruct (Z.leb_spec p (start (range x))); destruct (Z.leb_spec p (start (range y)));
    simpl; lia.
Qed.

Lemma reconcile_insertion_keeps_ranges_disjoint_witness :
  nonOverlapping
    (reconcileRangeInMentionedUsers 2 5
       [mkMention (mkUser "u1" "Al") (mkRange 0 3);
        mkMention (mkUser "u2" "Bo") (mkRange 8 11)]).
Proof.
  apply reconcile_insertion_keeps_ranges_disjoint.
  - lia.
  - repeat constructor; simpl; lia.
  - simpl. repeat split; try constructor; simpl; try lia. constructor.
Defined.

Lemma keptIn_idempotent selection ms :
  keptIn selection (keptIn selection ms) = keptIn selection ms /\
  removedIn selection (keptIn selection ms) = [].
Proof.
  split.
  - apply keptIn_all. intros it Hin. unfold keptIn in Hin.
    apply filter_In in Hin as (_ & H). now apply negb_true_iff.
  - apply removedIn_none. intros it Hin. unfold keptIn in Hin.
    apply filter_In in Hin as (_ & H). now apply negb_true_iff.
Qed.

Lemma nonOverlapping_filter (f : MentionedUser -> bool) ms :
  nonOverlapping ms -> nonOverlapping (filter f ms).
Proof.
  induction ms as [|x ms IH]; simpl; [trivial|]. intros (Hdis & Hno).
  destruct (f x); simpl; [|now apply IH]. split; [|now apply IH].
  rewrite Forall_forall in *. intros y Hy. apply Hdis.
  now apply filter_In in Hy as (Hy & _).
Qed.

(** X11. Removal settles in one pass: removing under the same selection from
    the list that a removal kept removes nothing more, and gives
    [lastSelection = 0] and [removedOffset = 0].  The kept list is a sub-list in
    the original order, so pairwise non-overlapping ranges stay so. *)
Theorem removal_is_idempotent (selection : Range) (ms : list MentionedUser) :
  let r := removeMentionedUsersInSelection selection ms in
  removeMentionedUsersInSelection selection (filtered r) =
  {| filtered := filtered r; lastSelection := 0; removedOffset := 0 |} /\
  (nonOverlapping ms -> nonOverlapping (filtered r)).
Proof.
  destruct (removal_unfold selection ms) as (Hf & _ & _). simpl in *.
  rewrite Hf. split.
  - destruct (removal_unfold selection (keptIn selection ms)) as (Hf2 & Ho2 & Hl2).
    simpl in *. destruct (keptIn_idempotent selection ms) as (Hk & Hr).
    rewrite Hk in Hf2. rewrite Hr in Ho2, Hl2. simpl in *.
    destruct (removeMentionedUsersInSelection selection (keptIn selection ms)).
    simpl in *. now subst.
  - apply nonOverlapping_filter.
Qed.

Lemma removal_is_idempotent_witness :
  let ms := [mkMention (mkUser "u1" "Al") (mkRange 0 3);
             mkMention (mkUser "u2" "Bo") (mkRange 8 11)] in
  nonOverlapping (filtered (removeMentionedUsersInSelection (mkRange 2 5) ms)).
Proof.
  intros ms. apply (removal_is_idempotent (mkRange 2 5) ms).
  simpl. repeat split; try constructor; simpl; try lia. constructor.
Defined.

(* ------------------------------------------------------------------------- *)
(** ** The hook: further properties                                          *)
(* ------------------------------------------------------------------------- *)

(** What [init] leaves behind, component by component. *)
Lemma init_run uid created h :
  exists h',
    init uid created h = (Returned tt, h') /\
    sortComparator h' = sortComparator h /\
    collectionRef h' =
      (if truthy uid then Some created else option_map markDisposed (collectionRef h)) /\
    dispatched h' = dispatched h ++ initActions uid /\
    store h' = fold_left (reducer (sortComparator h)) (initActions uid) (store h) /\
    sdkCalls h' =
      sdkCalls h ++ disposeCallsOf (collectionRef h) ++
      (if truthy uid
       then [callCreateMessageCollection (collectionId created);
             callMarkAsDelivered; callMarkAsRead;
             callInitialize (collectionId created);
             callSetHandler (collectionId created)]
       else []).
Proof.
  unfold init, bind, initActions. rewrite disposeCurrent_run.
  destruct (truthy uid).
  - unfold channelMarkAs, bind, sdk, writeRef, dispatch. simpl.
    eexists. split; [reflexivity|]. simpl.
    repeat split. now rewrite <- !app_assoc.
  - unfold ret. eexists. split; [reflexivity|]. simpl.
    repeat split; now rewrite app_nil_r.
Qed.

Lemma initWith_all_return uid created h :
  initWith uid (allReturn created) h = init uid created h.
Proof.
  unfold initWith, init, disposeCurrent, allReturn, bind, readRef, sdk, await, writeRef.
  simpl. destruct (collectionRef h); destruct (truthy uid); reflexivity.
Qed.

Lemma refreshWith_all_return userId created h :
  refreshWith userId (allReturn created) h = refresh userId created h.
Proof.
  unfold refreshWith, refresh, bind. unfold dispatch at 1 3.
  now rewrite initWith_all_return.
Qed.

(** X12. [refresh] has no [try] around [init]: when one of the calls that
    [init] makes throws, [refresh] throws that error and has dispatched
    [updateRefreshing true] but not [updateRefreshing false]; when none
    throws, [refresh] returns and [updateRefreshing false] is the last action
    it dispatches. *)
Theorem refresh_resets_flag_only_if_init_returns
    (userId : option string) (answers : InitAnswers) (h : Hook) :
  (forall e,
     firstFailure (collectionRef h) userId answers = Some e ->
     exists h' acts,
       refreshWith userId answers h = (Thrown e, h') /\
       dispatched h' = dispatched h ++ updateRefreshing true :: acts /\
       ~ In (updateRefreshing false) acts) /\
  (firstFailure (collectionRef h) userId answers = None ->
   exists h',
     refreshWith userId answers h = (Returned tt, h') /\
     dispatched h' =
       dispatched h ++ [updateRefreshing true] ++ initActions userId
                    ++ [updateRefreshing false]).
Proof.
  unfold firstFailure, refreshWith, initWith, initActions, channelMarkAs,
    bind, readRef, sdk, await, writeRef, dispatch, ret, thrownBy.
  destruct answers as [[[]|ed] [created|ec] [[]|ei] [[]|es]];
    destruct h as [cmp [col|] st acts0 calls]; simpl;
    destruct (truthy userId); simpl;
    (split;
    [ intros e He;
      first [ discriminate He
            | injection He as <-;
              eexists; eexists; split; [reflexivity|]; simpl;
              split; [rewrite <- ?app_assoc; reflexivity|];
              simpl; intuition discriminate ]
    | intros He;
      first [ discriminate He
            | eexists; split; [reflexivity|]; simpl;
              rewrite <- ?app_assoc; reflexivity ] ]).
Qed.

Lemma refresh_resets_flag_only_if_init_returns_witness :
  let live := mkCollection 7 true true false [] [] in
  let h := mkHook None (Some live) (mkState false false [] []) [] [] in
  let answers := mkAnswers (Returned tt) (Thrown "creator failed") (Returned tt) (Returned tt) in
  exists h' acts,
    refreshWith (Some "u1"%string) answers h = (Thrown "creator failed"%string, h') /\
    dispatched h' = updateRefreshing true :: acts /\
    ~ In (updateRefreshing false) acts.
Proof.
  intros live h answers.
  destruct (refresh_resets_flag_only_if_init_returns (Some "u1"%string) answers h)
    as (Hthrow & _).
  destruct (Hthrow "creator failed"%string eq_refl) as (h' & acts & Hrun & Hd & Hno).
  exists h', acts. repeat split; assumption.
Defined.

(** X13. [next] never throws, and when the page it fetched (if any) and the
    pending-next messages it holds are both empty it dispatches nothing: the
    store, the actions and the collection reference are unchanged. *)
Theorem next_without_messages_is_silent
    (nextMessages_ : list SendbirdMessage)
    (page : Result (list SendbirdMessage)) (h : Hook) :
  exists h',
    next nextMessages_ page h = (Returned tt, h') /\
    (fetchedPage h page ++ nextMessages_ = [] ->
     store h' = store h /\ dispatched h' = dispatched h /\
     collectionRef h' = collectionRef h).
Proof.
  rewrite next_run. cbv zeta.
  destruct (0 <? Z.of_nat (List.length (fetchedPage h page ++ nextMessages_))) eqn:E.
  - unfold bind, dispatch. eexists. split; [reflexivity|].
    intros Hnil. rewrite Hnil in E. discriminate.
  - eexists. split; [reflexivity|]. intros _.
    destruct (hasPage hasNext (collectionRef h)); simpl; repeat split.
Qed.

Lemma next_without_messages_is_silent_witness :
  let m1 := mkMessage (Some 1) None "u1" 10 "a" in
  let col := mkCollection 1 false true false [] [] in
  let h := mkHook None (Some col) (mkState false false [m1] []) [] [] in
  exists h',
    next [] (Thrown "network") h = (Returned tt, h') /\
    store h' = store h /\ dispatched h' = [].
Proof.
  intros m1 col h.
  destruct (next_without_messages_is_silent [] (Thrown "network") h) as (h' & Hrun & Hsilent).
  destruct (Hsilent eq_refl) as (Hs & Hd & _).
  exists h'. repeat split; assumption.
Defined.

(** X14. A send stores the pending message at once and returns it.  When the
    send completes, the caller's [onSent] callback, if there is one, runs
    first.  If it returns (or there is none), the sent message is stored with
    one [updateMessages] call exactly when the SDK reports no error and a
    message, and nothing more is dispatched otherwise; if it throws, the error
    is passed on and nothing is stored. *)
Theorem send_stores_pending_then_sent
    (onSent : option (SendbirdMessage -> option string -> M unit))
    (pendingMessage : SendbirdMessage) (sentMessage : option SendbirdMessage)
    (error : option string) (h : Hook) :
  (exists h',
     sendUserMessage pendingMessage h = (Returned pendingMessage, h') /\
     sendFileMessage pendingMessage h = (Returned pendingMessage, h') /\
     dispatched h' = dispatched h ++ [updateMessages [pendingMessage] false] /\
     store h' = reducer (sortComparator h) (store h) (updateMessages [pendingMessage] false)) /\
  (forall h1,
     runOnSent onSent pendingMessage error h = (Returned tt, h1) ->
     (forall sent, error = None -> sentMessage = Some sent ->
        exists h',
          onSendCompleted onSent pendingMessage sentMessage error h = (Returned tt, h') /\
          dispatched h' = dispatched h1 ++ [updateMessages [sent] false] /\
          store h' = reducer (sortComparator h1) (store h1) (updateMessages [sent] false)) /\
     (error <> None \/ sentMessage = None ->
        onSendCompleted onSent pendingMessage sentMessage error h = (Returned tt, h1))) /\
  (forall e h1,
     runOnSent onSent pendingMessage error h = (Thrown e, h1) ->
     onSendCompleted onSent pendingMessage sentMessage error h = (Thrown e, h1)) /\
  (onSent = None -> runOnSent onSent pendingMessage error h = (Returned tt, h)).
Proof.
  unfold sendUserMessage, sendFileMessage, onSendCompleted, bind.
  split; [|split; [|split]].
  - unfold dispatch, ret. eexists. repeat split.
  - intros h1 ->. split.
    + intros sent -> ->. unfold dispatch. eexists. repeat split.
    + intros [Herr | Hnone].
      * destruct error; [reflexivity | congruence].
      * rewrite Hnone. destruct error; reflexivity.
  - intros e h1 ->. reflexivity.
  - intros ->. reflexivity.
Qed.

Lemma send_stores_pending_then_sent_witness :
  let pending := mkMessage None (Some "r1"%string) "u1" 10 "a" in
  let sent := mkMessage (Some 9) (Some "r1"%string) "u1" 10 "a" in
  let h := mkHook None None (mkState false false [pending] []) [] [] in
  let onSent := Some (fun (_ : SendbirdMessage) (_ : option string) => sdk callMarkAsRead) in
  exists h',
    onSendCompleted onSent pending (Some sent) None h = (Returned tt, h') /\
    dispatched h' = [updateMessages [sent] false] /\
    messages (store h') = [sent].
Proof.
  intros pending sent h onSent.
  destruct (send_stores_pending_then_sent onSent pending (Some sent) None h)
    as (_ & Hdone & _ & _).
  destruct (Hdone (snd (sdk callMarkAsRead h)) eq_refl) as (Hstore & _).
  destruct (Hstore sent eq_refl eq_refl) as (h' & Hrun & Hd & Hs).
  exists h'. split; [exact Hrun|]. split; [exact Hd|]. rewrite Hs. reflexivity.
Defined.

(** X15. [resendMessage] does nothing for a message that is not resendable,
    or that is neither a user nor a file message.  For a resendable user or
    file message a failing resend call is not caught: the error reaches the
    caller and the hook is unchanged; a resend that yields a message stores
    it with one [updateMessages] call. *)
Theorem resend_stores_or_rethrows
    (failedMessage : FailedMessage) (answer : Result (option SendbirdMessage)) (h : Hook) :
  (isResendable failedMessage = false \/
   (isUserMessage failedMessage = false /\ isFileMessage failedMessage = false) ->
   resendMessage failedMessage answer h = (Returned tt, h)) /\
  (isResendable failedMessage = true ->
   isUserMessage failedMessage = true \/ isFileMessage failedMessage = true ->
   (forall e, answer = Thrown e -> resendMessage failedMessage answer h = (Thrown e, h)) /\
   (forall sent, answer = Returned (Some sent) ->
      exists h',
        resendMessage failedMessage answer h = (Returned tt, h') /\
        dispatched h' = dispatched h ++ [updateMessages [sent] false] /\
        store h' = reducer (sortComparator h) (store h) (updateMessages [sent] false))).
Proof.
  unfold resendMessage, bind, await, ret, dispatch.
  destruct failedMessage as [r u f]. simpl. split.
  - intros [-> | (-> & ->)]; [reflexivity|]. destruct r; reflexivity.
  - intros -> Hkind. simpl. split.
    + intros e ->. destruct Hkind as [-> | ->]; [reflexivity|]. destruct u; reflexivity.
    + intros sent ->. eexists.
      split; [destruct Hkind as [-> | ->]; [reflexivity | destruct u; reflexivity]|].
      repeat split.
Qed.

Lemma resend_stores_or_rethrows_witness :
  let h := mkHook None None (mkState false false [] []) [] [] in
  resendMessage (mkFailed true true false) (Thrown "network") h = (Thrown "network"%string, h) /\
  resendMessage (mkFailed false true false) (Thrown "network") h = (Returned tt, h).
Proof.
  intros h.
  destruct (resend_stores_or_rethrows (mkFailed true true false) (Thrown "network") h)
    as (_ & Hyes).
  destruct (resend_stores_or_rethrows (mkFailed false true false) (Thrown "network") h)
    as (Hno & _).
  split.
  - destruct (Hyes eq_refl (or_introl eq_refl)) as (Hthrow & _).
    apply Hthrow. reflexivity.
  - apply Hno. left. reflexivity.
Defined.

(** A call that neither creates nor disposes a collection. *)
Lemma liveStep_neutral (new : list SdkCall) : forall live,
  Forall (fun c => match c with
                   | callCreateMessageCollection _ | callDispose _ => False
                   | _ => True
                   end) new ->
  fold_left liveStep new live = live.
Proof.
  induction new as [|c new IH]; intros live Hall; [reflexivity|].
  inversion Hall as [|? ? Hc Hrest]; subst. simpl.
  rewrite IH by exact Hrest. destruct c; simpl in *; tauto.
Qed.

Lemma liveCollections_app calls new :
  liveCollections (calls ++ new) = fold_left liveStep new (liveCollections calls).
Proof. unfold liveCollections. apply fold_left_app. Qed.

Lemma liveReference_disposed c id :
  liveReference c = [] \/ liveReference c = [id] ->
  filter (fun x => negb (Nat.eqb x id)) (liveReference c) = [].
Proof.
  intros [-> | ->]; simpl; [reflexivity|]. now rewrite Nat.eqb_refl.
Qed.

(** [init] keeps the reference and the SDK's live collections in step. *)
Lemma init_keeps_live uid created h :
  disposed created = false ->
  liveCollections (sdkCalls h) = liveReference (collectionRef h) ->
  liveCollections (sdkCalls (snd (init uid created h))) =
  liveReference (collectionRef (snd (init uid created h))).
Proof.
  intros Hlive Hinv.
  destruct (init_run uid created h) as (h' & Hrun & _ & Href & _ & _ & Hcalls).
  rewrite Hrun. simpl snd. rewrite Href, Hcalls, liveCollections_app, fold_left_app, Hinv.
  assert (Hgone : fold_left liveStep (disposeCallsOf (collectionRef h))
                            (liveReference (collectionRef h)) = []).
  { destruct (collectionRef h) as [col|]; simpl; [|reflexivity].
    destruct (disposed col); simpl; [reflexivity | now rewrite Nat.eqb_refl]. }
  rewrite Hgone. destruct (truthy uid); simpl.
  - now rewrite Hlive.
  - destruct (collectionRef h); reflexivity.
Qed.

(** [init] between two flag updates reaches the same reference and makes
    the same SDK calls as [init] alone. *)
Lemma bracket_keeps_init a b uid created h :
  collectionRef (snd ((dispatch a ;;; init uid created ;;; dispatch b) h)) =
    collectionRef (snd (init uid created h)) /\
  sdkCalls (snd ((dispatch a ;;; init uid created ;;; dispatch b) h)) =
    sdkCalls (snd (init uid created h)).
Proof.
  unfold bind. set (h1 := snd (dispatch a h)).
  change (dispatch a h) with (Returned tt, h1). cbv beta iota.
  destruct (init_run uid created h) as (h0 & Hrun0 & _ & Href0 & _ & _ & Hcalls0).
  destruct (init_run uid created h1) as (h1' & Hrun1 & _ & Href1 & _ & _ & Hcalls1).
  rewrite Hrun0, Hrun1. simpl. rewrite Href0, Href1, Hcalls0, Hcalls1. split; reflexivity.
Qed.

Lemma handle_keeps_live e h :
  bringsLiveCollection e ->
  liveCollections (sdkCalls h) = liveReference (collectionRef h) ->
  liveCollections (sdkCalls (snd (handle e h))) =
  liveReference (collectionRef (snd (handle e h))).
Proof.
  intros Hlive Hinv.
  destruct e as [u c | u c | u c | page | nm page | err sn | ms | ms | ms | ];
    simpl in Hlive; cbn [handle].
  - unfold mountEffect.
    destruct (bracket_keeps_init (updateLoading true) (updateLoading false) u c h)
      as (-> & ->).
    now apply init_keeps_live.
  - unfold refresh.
    destruct (bracket_keeps_init (updateRefreshing true) (updateRefreshing false) u c h)
      as (-> & ->).
    now apply init_keeps_live.
  - now apply init_keeps_live.
  - unfold prev, bind, readRef, tryCatch, sdk, await, dispatch, ret.
    destruct (hasPage hasPrevious (collectionRef h)); [|exact Hinv].
    destruct page; simpl; rewrite liveCollections_app; exact Hinv.
  - rewrite next_run. cbv zeta. unfold bind, dispatch, sdk.
    destruct (0 <? _); destruct (hasPage hasNext (collectionRef h)); simpl;
      rewrite ?liveCollections_app; exact Hinv.
  - unfold onSnapshot, bind, readRef, dispatch, ret. destruct err; exact Hinv.
  - unfold onMessagesAdded, channelMarkAs, bind, sdk, dispatch. simpl.
    rewrite !liveCollections_app. exact Hinv.
  - exact Hinv.
  - exact Hinv.
  - unfold unmount. rewrite disposeCurrent_run. simpl.
    rewrite liveCollections_app, Hinv.
    destruct (collectionRef h) as [col|]; simpl; [|reflexivity].
    destruct (disposed col); simpl; [reflexivity | now rewrite Nat.eqb_refl].
Qed.

(** X16. From a hook without a collection, after any sequence of mounts,
    refreshes, gap re-initialisations, paging calls, snapshot and realtime
    callbacks and unmounts in which every new collection arrives undisposed,
    the collections created and not yet disposed are exactly the one the
    reference holds, if that one is not disposed: there is never more than
    one live collection, and none is left behind. *)
Theorem at_most_one_live_collection
    (es : list HookEvent) (cmp : option Comparator) (st : State) :
  Forall bringsLiveCollection es ->
  let h := runEvents es (freshHook cmp st) in
  liveCollections (sdkCalls h) = liveReference (collectionRef h) /\
  (List.length (liveCollections (sdkCalls h)) <= 1)%nat.
Proof.
  intros Hall. cbv zeta.
  assert (Hinv : forall es h,
             Forall bringsLiveCollection es ->
             liveCollections (sdkCalls h) = liveReference (collectionRef h) ->
             liveCollections (sdkCalls (runEvents es h)) =
             liveReference (collectionRef (runEvents es h))).
  { clear. induction es as [|e es IH]; intros h Hall Hinv; [exact Hinv|].
    inversion Hall; subst. simpl. apply IH; [assumption|].
    now apply handle_keeps_live. }
  specialize (Hinv es (freshHook cmp st) Hall eq_refl).
  split; [exact Hinv|]. rewrite Hinv.
  destruct (collectionRef _) as [col|]; simpl; [|lia].
  destruct (disposed col); simpl; lia.
Qed.

Lemma at_most_one_live_collection_witness :
  let first := mkCollection 1 true true false [] [] in
  let second := mkCollection 2 true true false [] [] in
  let h := runEvents [evMount (Some "u1"%string) first; evAdded [];
                      evHugeGap (Some "u1"%string) second; evPrev (Thrown "network")]
                     (freshHook None (mkState false false [] [])) in
  liveCollections (sdkCalls h) = [2%nat].
Proof.
  intros first second h.
  destruct (at_most_one_live_collection
              [evMount (Some "u1"%string) first; evAdded [];
               evHugeGap (Some "u1"%string) second; evPrev (Thrown "network")]
              None (mkState false false [] [])) as (Hlive & _).
  - repeat constructor.
  - exact Hlive.
Defined.

(* ------------------------------------------------------------------------- *)
(** ** createBaseLabel: properties                                           *)
(* ------------------------------------------------------------------------- *)

Lemma spreadSlot_spreadOf {G A} (group : option G) (key : G -> option (Slot A))
    (literal : A) :
  spreadOf group key literal (Runtime.spreadSlot group key literal).
Proof.
  unfold spreadOf, Runtime.spreadSlot. repeat split.
  - intros g s -> ->. reflexivity.
  - intros g -> ->. reflexivity.
  - intros ->. reflexivity.
Qed.

(** X17. Every key of the FRAGMENT, TYPE_SELECTOR and INVITE_MEMBERS groups
    follows the spread of its override group: when the group is passed and has
    the key, the label is what the group has under it (a value, or
    [undefined]); when the group has no such key, or is not passed, the label
    is its default.  The CHANNEL_MENU group has no spread: whatever the
    overrides are, its three labels are the defaults. *)
Theorem createBaseLabel_spreads_all_but_channel_menu
    (Locale : Type)
    (getGroupChannelTitle : string -> GroupChannel -> string)
    (getGroupChannelPreviewTime : GroupChannel -> Locale -> string)
    (getGroupChannelLastMessage : GroupChannel -> string)
    (dateLocale : Locale) (overrides : option Runtime.Overrides.LabelSet) :
  let labels := Runtime.createBaseLabel Locale getGroupChannelTitle
                  getGroupChannelPreviewTime getGroupChannelLastMessage
                  dateLocale overrides in
  let list := match overrides with
              | Some o => Runtime.Overrides.GROUP_CHANNEL_LIST o
              | None => None
              end in
  let fragmentOverrides := match list with
                           | Some l => Runtime.Overrides.GROUP_CHANNEL_LIST.FRAGMENT l
                           | None => None
                           end in
  let selectorOverrides := match list with
                           | Some l => Runtime.Overrides.GROUP_CHANNEL_LIST.TYPE_SELECTOR l
                           | None => None
                           end in
  let inviteOverrides := match overrides with
                         | Some o => Runtime.Overrides.INVITE_MEMBERS o
                         | None => None
                         end in
  let fragment := Runtime.GROUP_CHANNEL_LIST.FRAGMENT (Runtime.GROUP_CHANNEL_LIST labels) in
  let selector :=
    Runtime.GROUP_CHANNEL_LIST.TYPE_SELECTOR (Runtime.GROUP_CHANNEL_LIST labels) in
  let menu := Runtime.GROUP_CHANNEL_LIST.CHANNEL_MENU (Runtime.GROUP_CHANNEL_LIST labels) in
  let invite := Runtime.INVITE_MEMBERS labels in
  (CHANNEL_MENU.MENU_LEAVE_CHANNEL menu = "Leave channel"%string /\
   (forall channel,
      CHANNEL_MENU.MENU_NOTIFICATIONS menu channel = menuNotifications channel) /\
   (forall currentUserId channel,
      CHANNEL_MENU.TITLE menu currentUserId channel =
      getGroupChannelTitle currentUserId channel)) /\
  (spreadOf fragmentOverrides Runtime.Overrides.FRAGMENT.HEADER_TITLE
     "Channels"%string (Runtime.FRAGMENT.HEADER_TITLE fragment) /\
   spreadOf fragmentOverrides Runtime.Overrides.FRAGMENT.PREVIEW_TITLE
     (fun currentUserId channel => getGroupChannelTitle currentUserId channel)
     (Runtime.FRAGMENT.PREVIEW_TITLE fragment) /\
   spreadOf fragmentOverrides Runtime.Overrides.FRAGMENT.PREVIEW_TITLE_CAPTION
     (fun channel => getGroupChannelPreviewTime channel dateLocale)
     (Runtime.FRAGMENT.PREVIEW_TITLE_CAPTION fragment) /\
   spreadOf fragmentOverrides Runtime.Overrides.FRAGMENT.PREVIEW_BODY
     (fun channel => getGroupChannelLastMessage channel)
     (Runtime.FRAGMENT.PREVIEW_BODY fragment)) /\
  (spreadOf selectorOverrides Runtime.Overrides.TYPE_SELECTOR.HEADER_TITLE
     "Channel type"%string (Runtime.TYPE_SELECTOR.HEADER_TITLE selector) /\
   spreadOf selectorOverrides Runtime.Overrides.TYPE_SELECTOR.GROUP
     "Group"%string (Runtime.TYPE_SELECTOR.GROUP selector) /\
   spreadOf selectorOverrides Runtime.Overrides.TYPE_SELECTOR.SUPER_GROUP
     "Super group"%string (Runtime.TYPE_SELECTOR.SUPER_GROUP selector) /\
   spreadOf selectorOverrides Runtime.Overrides.TYPE_SELECTOR.BROADCAST
     "Broadcast"%string (Runtime.TYPE_SELECTOR.BROADCAST selector)) /\
  (spreadOf inviteOverrides Runtime.Overrides.INVITE_MEMBERS.HEADER_TITLE
     "Select members"%string (Runtime.INVITE_MEMBERS.HEADER_TITLE invite) /\
   spreadOf inviteOverrides Runtime.Overrides.INVITE_MEMBERS.HEADER_RIGHT
     headerRight (Runtime.INVITE_MEMBERS.HEADER_RIGHT invite)).
Proof.
  cbv zeta. split; [repeat split|].
  unfold Runtime.createBaseLabel, Runtime.listGroup, Runtime.inviteGroup.
  destruct overrides as [[[l|] i]|];
    repeat match goal with |- _ /\ _ => split end; apply spreadSlot_spreadOf.
Qed.

Lemma createBaseLabel_spreads_all_but_channel_menu_witness :
  let menu := Runtime.Overrides.CHANNEL_MENU.mk None None (Some (holds "Quit"%string)) in
  let selector :=
    Runtime.Overrides.TYPE_SELECTOR.mk None (Some (holds "Team"%string))
                                       (Some undefinedSlot) None in
  let overrides :=
    Some (Runtime.Overrides.mkLabelSet
            (Some (Runtime.Overrides.GROUP_CHANNEL_LIST.mk None (Some selector) (Some menu)))
            None) in
  let labels := Runtime.createBaseLabel unit (fun _ c => channelUrl c)
                  (fun c _ => channelUrl c) channelUrl tt overrides in
  let shown := Runtime.GROUP_CHANNEL_LIST.TYPE_SELECTOR (Runtime.GROUP_CHANNEL_LIST labels) in
  Runtime.TYPE_SELECTOR.GROUP shown = holds "Team"%string /\
  Runtime.TYPE_SELECTOR.SUPER_GROUP shown = undefinedSlot /\
  Runtime.TYPE_SELECTOR.BROADCAST shown = holds "Broadcast"%string /\
  Runtime.FRAGMENT.HEADER_TITLE
    (Runtime.GROUP_CHANNEL_LIST.FRAGMENT (Runtime.GROUP_CHANNEL_LIST labels))
    = holds "Channels"%string /\
  CHANNEL_MENU.MENU_LEAVE_CHANNEL
    (Runtime.GROUP_CHANNEL_LIST.CHANNEL_MENU (Runtime.GROUP_CHANNEL_LIST labels))
    = "Leave channel"%string.
Proof.
  intros menu selector overrides labels shown.
  destruct (createBaseLabel_spreads_all_but_channel_menu
              unit (fun _ c => channelUrl c) (fun c _ => channelUrl c) channelUrl tt overrides)
    as ((Hleave & _) & (Htitle & _) & (_ & Hgroup & Hsuper & Hbroadcast) & _).
  split; [|split; [|split; [|split]]].
  - destruct Hgroup as (Hpresent & _). apply (Hpresent selector); reflexivity.
  - destruct Hsuper as (Hpresent & _). apply (Hpresent selector); reflexivity.
  - destruct Hbroadcast as (_ & Hleft & _). apply (Hleft selector); reflexivity.
  - destruct Htitle as (_ & _ & Habsent). apply Habsent. reflexivity.
  - exact Hleave.
Defined.

Lemma spreadSlot_typed {G G' A} (group : option G) (key : G -> option (Slot A))
    (typed : G -> G') (key' : G' -> option A) (literal : A) :
  (forall g, key' (typed g) = typedKey (key g)) ->
  keyDefined group key ->
  Runtime.spreadSlot group key literal =
  holds (spreadKey (option_map typed group) key' literal).
Proof.
  intros Hkey Hdefined. unfold Runtime.spreadSlot, spreadKey.
  destruct group as [g|]; simpl; [|reflexivity].
  rewrite Hkey. specialize (Hdefined g eq_refl).
  destruct (key g) as [[a|]|]; simpl; [reflexivity | congruence | reflexivity].
Qed.

Lemma listGroup_typed {G G'} (overrides : option Runtime.Overrides.LabelSet)
    (x : Runtime.Overrides.GROUP_CHANNEL_LIST.t -> option G)
    (x' : Partial.GROUP_CHANNEL_LIST.t -> option G') (typed : G -> G') :
  (forall l, x' (typedList l) = option_map typed (x l)) ->
  listGroup (option_map typedOverrides overrides) x' =
  option_map typed (Runtime.listGroup overrides x).
Proof.
  intros Hx. unfold listGroup, Runtime.listGroup.
  destruct overrides as [o|]; simpl; [|reflexivity].
  destruct (Runtime.Overrides.GROUP_CHANNEL_LIST o) as [l|]; simpl; [apply Hx | reflexivity].
Qed.

(** For overrides in which no key is present with [undefined], the labels at
    run time are those of [createBaseLabel] on the same overrides, each one
    holding its value. *)
Lemma createBaseLabel_typed_view
    (Locale : Type)
    (getGroupChannelTitle : string -> GroupChannel -> string)
    (getGroupChannelPreviewTime : GroupChannel -> Locale -> string)
    (getGroupChannelLastMessage : GroupChannel -> string)
    (dateLocale : Locale) (overrides : option Runtime.Overrides.LabelSet) :
  noUndefinedKey overrides ->
  Runtime.createBaseLabel Locale getGroupChannelTitle getGroupChannelPreviewTime
    getGroupChannelLastMessage dateLocale overrides =
  atRuntime (createBaseLabel Locale getGroupChannelTitle getGroupChannelPreviewTime
               getGroupChannelLastMessage dateLocale
               (option_map typedOverrides overrides)).
Proof.
  intros (Hf1 & Hf2 & Hf3 & Hf4 & Ht1 & Ht2 & Ht3 & Ht4 & Hi1 & Hi2).
  unfold Runtime.createBaseLabel, createBaseLabel, atRuntime. cbv zeta. simpl.
  rewrite (listGroup_typed overrides Runtime.Overrides.GROUP_CHANNEL_LIST.FRAGMENT
             Partial.GROUP_CHANNEL_LIST.FRAGMENT typedFragment) by reflexivity.
  rewrite (listGroup_typed overrides Runtime.Overrides.GROUP_CHANNEL_LIST.TYPE_SELECTOR
             Partial.GROUP_CHANNEL_LIST.TYPE_SELECTOR typedSelector) by reflexivity.
  assert (Hinvite : inviteGroup (option_map typedOverrides overrides) =
                    option_map typedInvite (Runtime.inviteGroup overrides))
    by (destruct overrides; reflexivity).
  rewrite Hinvite.
  repeat f_equal; apply spreadSlot_typed; (reflexivity || assumption).
Qed.

(** X18. The default labels: the notification entry is empty without a
    channel, and with one it reads "Turn on notifications" exactly when the
    channel's push trigger option is "off"; the invite header reads "Create"
    exactly when no user is selected, and otherwise is the number of selected
    users, in decimal, followed by " Create". *)
Theorem default_labels_follow_their_argument
    (Locale : Type)
    (getGroupChannelTitle : string -> GroupChannel -> string)
    (getGroupChannelPreviewTime : GroupChannel -> Locale -> string)
    (getGroupChannelLastMessage : GroupChannel -> string)
    (dateLocale : Locale) :
  let labels := createBaseLabel Locale getGroupChannelTitle getGroupChannelPreviewTime
                                getGroupChannelLastMessage dateLocale None in
  let notifications :=
    CHANNEL_MENU.MENU_NOTIFICATIONS
      (GROUP_CHANNEL_LIST.CHANNEL_MENU (GROUP_CHANNEL_LIST labels)) in
  let right := INVITE_MEMBERS.HEADER_RIGHT (INVITE_MEMBERS labels) in
  notifications None = EmptyString /\
  (forall channel,
     (notifications (Some channel) = "Turn on notifications"%string <->
      myPushTriggerOption channel = "off"%string) /\
     (myPushTriggerOption channel <> "off"%string ->
      notifications (Some channel) = "Turn off notifications"%string)) /\
  (forall (T : Type) (selectedUsers : list T),
     (right T selectedUsers = "Create"%string <-> selectedUsers = []) /\
     (selectedUsers <> [] ->
      right T selectedUsers
      = (numberToString (List.length selectedUsers) ++ " Create")%string)).
Proof.
  cbv zeta. split; [reflexivity|]. split.
  - intros channel. simpl. unfold menuNotifications.
    destruct (String.eqb_spec (myPushTriggerOption channel) "off") as [Heq | Hne].
    + split; [tauto | congruence].
    + split; [split; [discriminate | congruence] | reflexivity].
  - intros T selectedUsers. simpl. unfold headerRight.
    destruct selectedUsers as [|x rest]; simpl.
    + split; [tauto | congruence].
    + split; [|reflexivity]. split; [|discriminate].
      intros H. apply (f_equal String.length) in H.
      rewrite length_append in H. simpl in H. lia.
Qed.

(* ------------------------------------------------------------------------- *)
(** ** Bounds on the result of a removal                                     *)
(* ------------------------------------------------------------------------- *)

Lemma sumZ_nonneg (l : list Z) : Forall (fun z => 0 <= z) l -> 0 <= sumZ l.
Proof. induction 1; simpl; lia. Qed.

(** X19. [lastSelection] is never negative; when every range has
    [start <= end], [removedOffset] is never positive; and the kept list is
    never longer than the given one. *)
Theorem removal_result_bounds (selection : Range) (ms : list MentionedUser) :
  Forall (fun it => start (range it) <= end_ (range it)) ms ->
  let r := removeMentionedUsersInSelection selection ms in
  0 <= lastSelection r /\ removedOffset r <= 0 /\
  (List.length (filtered r) <= List.length ms)%nat.
Proof.
  intros Hwf. destruct (removal_unfold selection ms) as (Hf & Ho & Hl). simpl in *.
  rewrite Hf, Ho, Hl. split; [apply maxEnd_nonneg|]. split.
  - assert (0 <= sumZ (map rangeLength (removedIn selection ms))); [|lia].
    apply sumZ_nonneg. rewrite Forall_map. unfold removedIn.
    rewrite Forall_forall in *. intros it Hin.
    apply filter_In in Hin as (Hin & _). specialize (Hwf it Hin).
    unfold rangeLength. simpl in *. lia.
  - unfold keptIn. apply filter_length_le.
Qed.

Lemma removal_result_bounds_witness :
  let ms := [mkMention (mkUser "u1" "Al") (mkRange 0 3);
             mkMention (mkUser "u2" "Bo") (mkRange 8 11)] in
  removedOffset (removeMentionedUsersInSelection (mkRange 2 9) ms) <= 0.
Proof.
  intros ms. apply (removal_result_bounds (mkRange 2 9) ms).
  repeat constructor; simpl; lia.
Defined.
